(** * Cross3D prism edge network

    A shallow embedding of [src/infill/Cross3DPrismEdgeNetwork.cpp] and the
    properties of the edge network that its specification states.

    Conventions of the embedding.
    - Coordinates ([coord_t], the fields of [Point] and [Point3]) are
      mathematical integers; [/] on them is C++ integer division, which
      truncates toward zero ([Z.quot]).
    - A cell pointer is the index of the cell in [cell_data]; the two
      [std::map]s keyed by cell pointers are [gmap]s keyed by that index.
    - A run of the code either returns a value or stops in a [fault]: a failed
      [assert] or an operation without defined behaviour (reading past the end
      of a container, [front()] of an empty one, division by zero). *)

From Stdlib Require Import Reals Lra.
From Stdlib Require Import ZArith Lia List.
From stdpp Require Import base option list gmap.

Open Scope Z_scope.

(** ** Outcomes of a run *)

Inductive fault : Set :=
| AssertionFailed
| UndefinedBehaviour.

Inductive result (A : Type) : Type :=
| Ok (a : A)
| Fault (f : fault).

Arguments Ok {A} a.
Arguments Fault {A} f.

#[global] Instance result_ret : MRet result := fun A a => Ok a.
#[global] Instance result_bind : MBind result := fun A B k r =>
  match r with
  | Ok a => k a
  | Fault f => Fault f
  end.

(** [assert(b)] *)
Definition assert (b : bool) : result unit :=
  if b then Ok tt else Fault AssertionFailed.

(** An access that is only defined when the element is there. *)
Definition defined {A : Type} (o : option A) : result A :=
  match o with
  | Some a => Ok a
  | None => Fault UndefinedBehaviour
  end.

(** ** Geometry *)

(** Modelled from the spec: the headers of [Point], [Point3] and
    [LineSegment] are not part of the sources at hand.  The spec describes
    them as fixed-point positions in integer micrometres, [Point3] with an
    explicit [z]; the operators below are the componentwise ones the code
    calls. *)
Record Point : Set := mkPoint { X : Z; Y : Z }.
Record Point3 : Set := mkPoint3 { x : Z; y : Z; z : Z }.
Record LineSegment : Set := mkLineSegment { from : Point; to : Point }.

#[global] Instance Point_eq_dec : EqDecision Point.
Proof. solve_decision. Defined.
#[global] Instance Point3_eq_dec : EqDecision Point3.
Proof. solve_decision. Defined.

Definition toPoint (p : Point3) : Point := mkPoint (x p) (y p).
Definition toPoint3 (p : Point) (h : Z) : Point3 := mkPoint3 (X p) (Y p) h.

Definition Point_add (a b : Point) : Point := mkPoint (X a + X b) (Y a + Y b).
Definition Point_sub (a b : Point) : Point := mkPoint (X a - X b) (Y a - Y b).
Definition Point_mul (a : Point) (k : Z) : Point := mkPoint (X a * k) (Y a * k).
Definition Point_div (a : Point) (k : Z) : result Point :=
  if decide (k = 0) then Fault UndefinedBehaviour
  else Ok (mkPoint (X a ÷ k) (Y a ÷ k)).

Definition Point3_add (a b : Point3) : Point3 :=
  mkPoint3 (x a + x b) (y a + y b) (z a + z b).
Definition Point3_sub (a b : Point3) : Point3 :=
  mkPoint3 (x a - x b) (y a - y b) (z a - z b).
Definition Point3_mul (a : Point3) (k : Z) : Point3 :=
  mkPoint3 (x a * k) (y a * k) (z a * k).
Definition Point3_div (a : Point3) (k : Z) : result Point3 :=
  if decide (k = 0) then Fault UndefinedBehaviour
  else Ok (mkPoint3 (x a ÷ k) (y a ÷ k) (z a ÷ k)).

(** Modelled from the spec: [Point3::vSize2] and [vSize] on a 2D point are
    declared outside the sources at hand; they are the squared Euclidean
    length and the Euclidean length in integer micrometres (the square root
    truncated). *)
Definition vSize2 (p : Point3) : Z := x p * x p + y p * y p + z p * z p.
Definition vSize (p : Point) : Z := Z.sqrt (X p * X p + Y p * Y p).

(** ** The subdivision structure, as the edge network reads it *)

Inductive Direction : Set := LEFT | RIGHT | DOWN | UP.

#[global] Instance Direction_eq_dec : EqDecision Direction.
Proof. solve_decision. Defined.

(** Modelled from the spec: [Cross3D::opposite] is declared outside the
    sources at hand; it swaps UP with DOWN and LEFT with RIGHT. *)
Definition opposite (d : Direction) : Direction :=
  match d with
  | LEFT => RIGHT
  | RIGHT => LEFT
  | DOWN => UP
  | UP => DOWN
  end.

(** Modelled from the spec: the declarations of [Cross3D::Link],
    [Cross3D::Cell] and of the prism of a cell are outside the sources at
    hand.  The records hold what the network reads of them: the index a link
    leads to; the two side edges of the triangle ([getFromEdge] the LEFT one,
    [getToEdge] the RIGHT one); the z range; [is_expanding]; the depth; and,
    per direction, the ordered list of links to the neighbours. *)
Record Link : Set := mkLink { to_index : nat }.

Record Triangle : Set := mkTriangle {
  getFromEdge : LineSegment;
  getToEdge : LineSegment
}.

Record Range : Set := mkRange { min : Z; max : Z }.

Record Prism : Set := mkPrism {
  triangle : Triangle;
  z_range : Range;
  is_expanding : bool
}.

(** [depth] is a [char] in the code; [CHAR_MAX] below is
    [std::numeric_limits<char>::max()] for a signed 8-bit [char]. *)
Record Cell : Set := mkCell {
  elem : Prism;
  depth : Z;
  adjacent_cells : Direction -> list Link
}.

Definition CHAR_MAX : Z := 127.

(** Modelled from the spec: [Cross3D] itself is outside the sources at hand.
    The network reads [cell_data] and the result of [getDepthOrdered()]: a
    sequence of layers of cells, each cell given by its index. *)
Record Cross3D : Type := mkCross3D {
  cell_data : list Cell;
  getDepthOrdered : list (list nat)
}.

(** [front()] and [back()] of a list or vector. *)
Definition front {A : Type} (l : list A) : result A := defined (head l).
Definition back {A : Type} (l : list A) : result A := defined (last l).

(** ** The edge network *)

Record Cross3DPrismEdgeNetwork : Type := mkNetwork {
  cell_to_left_edge_locations : gmap nat (list Point3);
  cell_to_right_edge_locations : gmap nat (list Point3)
}.

(** A reference to one of the two maps of the network. *)
Inductive EdgeMap : Set := LeftEdges | RightEdges.

#[global] Instance EdgeMap_eq_dec : EqDecision EdgeMap.
Proof. solve_decision. Defined.

Definition edges (net : Cross3DPrismEdgeNetwork) (m : EdgeMap)
  : gmap nat (list Point3) :=
  match m with
  | LeftEdges => cell_to_left_edge_locations net
  | RightEdges => cell_to_right_edge_locations net
  end.

Definition set_edges (net : Cross3DPrismEdgeNetwork) (m : EdgeMap)
    (es : gmap nat (list Point3)) : Cross3DPrismEdgeNetwork :=
  match m with
  | LeftEdges => mkNetwork es (cell_to_right_edge_locations net)
  | RightEdges => mkNetwork (cell_to_left_edge_locations net) es
  end.

(** [std::map::emplace]: nothing happens when the key is already there. *)
Definition emplace (k : nat) (v : list Point3) (es : gmap nat (list Point3))
  : gmap nat (list Point3) :=
  match es !! k with
  | Some _ => es
  | None => <[k := v]> es
  end.

(** [map.find(&cell)] followed by the assertion that the cell was found. *)
Definition find_asserted (es : gmap nat (list Point3)) (k : nat)
  : result (list Point3) :=
  match es !! k with
  | Some e => Ok e
  | None => Fault AssertionFailed
  end.

(** *** adjustEdgeEnd *)

(** [edge_locations.insert(edge_locations.begin() + i, p)] *)
Definition insert_at (i : nat) (p : Point3) (l : list Point3) : list Point3 :=
  take i l ++ p :: drop i l.

(** Assign through the reference [to_be_moved]. *)
Definition set_end (up_down : Direction) (p : Point3) (l : list Point3)
  : list Point3 :=
  if decide (up_down = UP) then <[(length l - 1)%nat := p]> l
  else <[0%nat := p]> l.

Definition bending_point_of (to_be_moved lower_edge_location move_destination : Point3)
  : result Point3 :=
  let move_length :=
    vSize (Point_sub (toPoint move_destination) (toPoint to_be_moved)) in
  let edge_direction_vector := Point3_sub lower_edge_location to_be_moved in
  let edge_direction_vector_length := vSize (toPoint edge_direction_vector) in
  half ← Point3_div (Point3_mul edge_direction_vector move_length) 2;
  step ← Point3_div half edge_direction_vector_length;
  Ok (Point3_add to_be_moved step).

Definition adjustEdgeEnd (edge_locations : list Point3) (up_down : Direction)
    (move_destination : Point3) : result (list Point3) :=
  to_be_moved ←
    (if decide (up_down = UP) then back edge_locations
     else front edge_locations);
  if decide (to_be_moved = move_destination) then Ok edge_locations
  else
    lower_edge_location ←
      defined (if decide (up_down = UP)
               then (if decide (2 ≤ length edge_locations)%nat
                     then edge_locations !! (length edge_locations - 2)%nat
                     else None)
               else edge_locations !! 1%nat);
    bending_point ←
      bending_point_of to_be_moved lower_edge_location move_destination;
    if decide (vSize2 (Point3_sub bending_point lower_edge_location) > 10 * 10
               ∧ vSize2 (Point3_sub bending_point move_destination) > 10 * 10)
    then
      let moved := set_end up_down move_destination edge_locations in
      Ok (insert_at (if decide (up_down = UP) then (length moved - 1)%nat
                     else 1%nat) bending_point moved)
    else Ok (set_end up_down move_destination edge_locations).

(** *** Iteration *)

(** A [for] loop over a container whose body updates a state and may stop the
    run. *)
Fixpoint for_each {S A : Type} (body : S -> A -> result S) (l : list A) (s : S)
  : result S :=
  match l with
  | [] => Ok s
  | a :: l' => s' ← body s a; for_each body l' s'
  end.

(** *** getCellEdgeLocation: the scan over consecutive pairs *)

Definition interpolate (edge_location_below edge_location_above : Point3)
    (zq : Z) : result Point :=
  let rest_z := zq - z edge_location_below in
  let edge_direction :=
    mkPoint (x edge_location_above - x edge_location_below)
            (y edge_location_above - y edge_location_below) in
  _ ← assert (bool_decide (edge_direction ≠ mkPoint 0 0));
  d ← Point_div (Point_mul edge_direction rest_z)
                (z edge_location_above - z edge_location_below);
  Ok (Point_add (mkPoint (x edge_location_below) (y edge_location_below)) d).

(** The loop runs [edge_location_idx] over [0 .. size - 1] and reads
    [edge_locations[edge_location_idx + 1]]: at the last index this read is
    past the end, before the closing [assert(false)] could be reached. *)
Fixpoint scan_edge (edge_locations : list Point3) (zq : Z) : result Point :=
  match edge_locations with
  | edge_location_below :: rest =>
      match rest with
      | edge_location_above :: _ =>
          if decide (zq ≤ z edge_location_above)
          then interpolate edge_location_below edge_location_above zq
          else scan_edge rest zq
      | [] => Fault UndefinedBehaviour
      end
  | [] => Fault UndefinedBehaviour
  end.

(** *** debugCheckInclination *)

Section Inclination.

(** The test [angle_deg > 35.0] of the code is evaluated in floating point
    on [atan(INT2MM(z) / INT2MM(xy))]; it is kept abstract, as a function
    of the two integers it is computed from. *)
Variable angle_deg_gt_35 : Z -> Z -> bool.

Fixpoint check_from (below : Point3) (rest : list Point3) : result unit :=
  match rest with
  | [] => Ok tt
  | above :: rest' =>
      let xy := vSize (toPoint (Point3_sub above below)) in
      let dz := z above - z below in
      _ ← assert (angle_deg_gt_35 dz xy);
      check_from above rest'
  end.

Definition debugCheckInclination (edge : list Point3) : result unit :=
  _ ← assert (bool_decide (1 < length edge)%nat);
  below ← front edge;
  check_from below (tail edge).

Definition debugCheckInclinations (net : Cross3DPrismEdgeNetwork)
  : result unit :=
  _ ← for_each (fun (_ : unit) pair => debugCheckInclination pair.2)
        (map_to_list (cell_to_left_edge_locations net)) tt;
  for_each (fun (_ : unit) pair => debugCheckInclination pair.2)
    (map_to_list (cell_to_right_edge_locations net)) tt.

End Inclination.

(** *** Construction *)

Section Network.

Variable subdivision_structure : Cross3D.

(** [LinearAlg2D::intersection] is outside the sources at hand; the
    resolver only passes its result on. *)
Variable intersection : LineSegment -> LineSegment -> Point.

(** [subdivision_structure->cell_data[i]] *)
Definition cell_at (i : nat) : result Cell :=
  defined (cell_data subdivision_structure !! i).

Definition getNeighborDepth (cell : Cell) (direction : Direction) : result Z :=
  let neighbors := adjacent_cells cell direction in
  match neighbors with
  | [] => Ok CHAR_MAX
  | l :: _ => c ← cell_at (to_index l); Ok (depth c)
  end.

Definition applyOscillationConstraints (net : Cross3DPrismEdgeNetwork)
    (cell : Cell) (edge_side up_down : Direction)
    (edge_locations : list Point3) : result (list Point3) :=
  let upstairs_neighbors := adjacent_cells cell up_down in
  if decide (upstairs_neighbors = []) then Ok edge_locations
  else
    upstairs_link ←
      (if decide (edge_side = LEFT) then front upstairs_neighbors
       else back upstairs_neighbors);
    let upstairs_neighbor_idx := to_index upstairs_link in
    upstairs_neighbor ← cell_at upstairs_neighbor_idx;
    let upstairs_side_neighbors := adjacent_cells upstairs_neighbor edge_side in
    _ ← assert (bool_decide (upstairs_side_neighbors ≠ []));
    upstairs_side_link ←
      (if decide (up_down = UP) then front upstairs_side_neighbors
       else back upstairs_side_neighbors);
    let upstairs_side_neighbor_idx := to_index upstairs_side_link in
    upstairs_side_neighbor ← cell_at upstairs_side_neighbor_idx;
    if decide (depth cell >=
               Z.max (depth upstairs_neighbor) (depth upstairs_side_neighbor))
    then Ok edge_locations
    else
      edge_above ←
        (if decide (depth upstairs_neighbor > depth upstairs_side_neighbor
                    ∨ (edge_side = RIGHT
                       ∧ depth upstairs_neighbor = depth upstairs_side_neighbor))
         then find_asserted
                (edges net (if decide (edge_side = LEFT) then LeftEdges
                            else RightEdges))
                upstairs_neighbor_idx
         else find_asserted
                (edges net (if decide (edge_side = RIGHT) then LeftEdges
                            else RightEdges))
                upstairs_side_neighbor_idx);
      _ ← assert (bool_decide (edge_above ≠ []));
      move_destination ←
        (if decide (up_down = UP) then front edge_above else back edge_above);
      adjustEdgeEnd edge_locations up_down move_destination.

Definition addCellEdge (net : Cross3DPrismEdgeNetwork) (cell_ptr : nat)
    (cell : Cell) (cell_to_edge_locations : EdgeMap) (edge_side : Direction)
  : result Cross3DPrismEdgeNetwork :=
  let edge :=
    if decide (edge_side = LEFT) then getFromEdge (triangle (elem cell))
    else getToEdge (triangle (elem cell)) in
  let edge :=
    if is_expanding (elem cell) then edge
    else mkLineSegment (to edge) (from edge) in
  let edge_locations :=
    [ mkPoint3 (X (from edge)) (Y (from edge)) (min (z_range (elem cell)));
      mkPoint3 (X (to edge)) (Y (to edge)) (max (z_range (elem cell))) ] in
  edge_locations ←
    applyOscillationConstraints net cell edge_side UP edge_locations;
  edge_locations ←
    applyOscillationConstraints net cell edge_side DOWN edge_locations;
  Ok (set_edges net cell_to_edge_locations
        (emplace cell_ptr edge_locations (edges net cell_to_edge_locations))).

Definition addCellEdges (net : Cross3DPrismEdgeNetwork) (cell_ptr : nat)
  : result Cross3DPrismEdgeNetwork :=
  cell ← cell_at cell_ptr;
  left_depth ← getNeighborDepth cell LEFT;
  net ←
    (if decide (depth cell > left_depth)
     then addCellEdge net cell_ptr cell LeftEdges LEFT
     else Ok net);
  right_depth ← getNeighborDepth cell RIGHT;
  if decide (depth cell >= right_depth)
  then addCellEdge net cell_ptr cell RightEdges RIGHT
  else Ok net.

Definition getEdge (net : Cross3DPrismEdgeNetwork) (cell_ptr : nat)
    (cell : Cell) (edge_side up_down : Direction) : result (list Point3) :=
  let neighbors := adjacent_cells cell edge_side in
  neighbor_link ←
    (if decide (up_down = UP) then back neighbors else front neighbors);
  neighbor ← cell_at (to_index neighbor_link);
  if decide (depth neighbor > depth cell
             ∨ (edge_side = LEFT ∧ depth neighbor = depth cell))
  then find_asserted
         (edges net (if decide (edge_side = RIGHT) then LeftEdges
                     else RightEdges))
         (to_index neighbor_link)
  else find_asserted
         (edges net (if decide (edge_side = LEFT) then LeftEdges
                     else RightEdges))
         cell_ptr.

Definition preventZdiscontinuityProblem (net : Cross3DPrismEdgeNetwork)
    (cell_ptr : nat) (up_down : Direction)
  : result Cross3DPrismEdgeNetwork :=
  cell ← cell_at cell_ptr;
  let upstairs_neighbors := adjacent_cells cell up_down in
  if decide (length upstairs_neighbors < 2)%nat then Ok net
  else
    from_edge ← getEdge net cell_ptr cell LEFT up_down;
    from_end ←
      (if decide (up_down = UP) then back from_edge else front from_edge);
    to_edge ← getEdge net cell_ptr cell RIGHT up_down;
    to_end ← (if decide (up_down = UP) then back to_edge else front to_edge);
    leftmost_link ← front upstairs_neighbors;
    leftmost_upstairs_neighbor ← cell_at (to_index leftmost_link);
    rightmost_link ← back upstairs_neighbors;
    rightmost_upstairs_neighbor ← cell_at (to_index rightmost_link);
    _ ← assert (bool_decide
                  (depth leftmost_upstairs_neighbor = depth cell + 1));
    _ ← assert (bool_decide
                  (depth rightmost_upstairs_neighbor
                   = depth leftmost_upstairs_neighbor));
    _ ← assert (bool_decide
                  (cell_to_left_edge_locations net !! to_index rightmost_link
                   = None));
    trouble_edge_locations ←
      find_asserted (cell_to_right_edge_locations net)
                    (to_index leftmost_link);
    let trouble_edge :=
      getToEdge (triangle (elem leftmost_upstairs_neighbor)) in
    let trouble_edge_middle :=
      intersection trouble_edge
                   (mkLineSegment (toPoint from_end) (toPoint to_end)) in
    let trouble_edge_middle_3d :=
      toPoint3 trouble_edge_middle
        (if decide (up_down = UP)
         then min (z_range (elem leftmost_upstairs_neighbor))
         else max (z_range (elem leftmost_upstairs_neighbor))) in
    adjusted ←
      adjustEdgeEnd trouble_edge_locations (opposite up_down)
                    trouble_edge_middle_3d;
    Ok (mkNetwork (cell_to_left_edge_locations net)
          (<[to_index leftmost_link := adjusted]>
             (cell_to_right_edge_locations net))).

(** The first loop of the constructor: the layers from the deepest to the
    shallowest, [addCellEdges] on every cell of a layer. *)
Definition build_edges (net : Cross3DPrismEdgeNetwork)
  : result Cross3DPrismEdgeNetwork :=
  for_each (fun net cells => for_each addCellEdges cells net)
           (reverse (getDepthOrdered subdivision_structure)) net.

(** The second loop of the constructor. *)
Definition resolve_cell (net : Cross3DPrismEdgeNetwork) (cell_ptr : nat)
  : result Cross3DPrismEdgeNetwork :=
  net ← preventZdiscontinuityProblem net cell_ptr UP;
  preventZdiscontinuityProblem net cell_ptr DOWN.

Definition resolve_discontinuities (net : Cross3DPrismEdgeNetwork)
  : result Cross3DPrismEdgeNetwork :=
  for_each (fun net cells => for_each resolve_cell cells net)
           (getDepthOrdered subdivision_structure) net.

(** The constructor; [DEBUG] tells whether the macro of that name is
    defined, in which case the inclinations are checked at the end. *)
Definition construct (angle_deg_gt_35 : Z -> Z -> bool) (DEBUG : bool)
  : result Cross3DPrismEdgeNetwork :=
  net ← build_edges (mkNetwork ∅ ∅);
  net ← resolve_discontinuities net;
  if DEBUG
  then _ ← debugCheckInclinations angle_deg_gt_35 net; Ok net
  else Ok net.

Definition getCellEdgeLocation (net : Cross3DPrismEdgeNetwork)
    (before_ptr after_ptr : nat) (zq : Z) : result Point :=
  before ← cell_at before_ptr;
  after ← cell_at after_ptr;
  edge_locations ←
    (if decide (depth after > depth before)
     then find_asserted (cell_to_left_edge_locations net) after_ptr
     else find_asserted (cell_to_right_edge_locations net) before_ptr);
  _ ← assert (bool_decide (2 ≤ length edge_locations)%nat);
  scan_edge edge_locations zq.

End Network.


(** * LinesSet

    The part of [src/geometry/lines_set.cpp] that works on the container
    itself.  A line ([OpenPolyline], [ClosedPolyline] or [Polygon]) is the
    sequence of its points; the set is the vector [lines_]. *)

Module LinesSet.

(** [line.empty()] *)
Definition empty (line : list Point) : bool := bool_decide (line = []).

(** [push_back(line, checkNonEmpty)] *)
Definition push_back (lines_ : list (list Point)) (line : list Point)
    (checkNonEmpty : bool) : list (list Point) :=
  if negb checkNonEmpty || negb (empty line) then lines_ ++ [line] else lines_.

(** [push_back(paths)] and [push_back(lines_set)]: every line of the argument
    is appended. *)
Definition push_back_all (lines_ other : list (list Point))
  : list (list Point) :=
  fold_left (fun acc line => acc ++ [line]) other lines_.

(** [pointCount]: [std::accumulate] from [size_t(0)]. *)
Definition pointCount (lines_ : list (list Point)) : nat :=
  fold_left (fun (total : nat) (line : list Point) => (total + length line)%nat)
            lines_ 0%nat.

(** [addSegment] *)
Definition addSegment (lines_ : list (list Point)) (from to : Point)
  : list (list Point) :=
  lines_ ++ [[from; to]].

(** [removeAt]: the last line takes the place of the removed one. *)
Definition removeAt (lines_ : list (list Point)) (index : nat)
  : result (list (list Point)) :=
  if decide (length lines_ = 1%nat) then Ok []
  else if decide (1 < length lines_)%nat then
    _ ← assert (bool_decide (index < length lines_)%nat);
    last_line ← back lines_;
    let lines_ :=
      if decide (index < length lines_ - 1)%nat
      then <[index := last_line]> lines_
      else lines_ in
    Ok (take (length lines_ - 1) lines_)
  else Ok lines_.

Section Length.

(** [line.length()], declared outside the sources at hand. *)
Variable line_length : list Point -> Z.

(** Conversion of a [coord_t] to [int] (modular), and the range of
    [coord_t], outside of which the addition is undefined. *)
Definition to_int (v : Z) : Z := (v + 2 ^ 31) mod 2 ^ 32 - 2 ^ 31.
Definition in_coord_t (v : Z) : bool := (- 2 ^ 63 <=? v) && (v <? 2 ^ 63).

(** [length]: [std::accumulate] from the [int] literal [0], so the running
    total is an [int]: each step converts its [coord_t] result back. *)
Definition accumulate_length (lines_ : list (list Point)) (init : Z)
  : result Z :=
  for_each (fun (total : Z) (line : list Point) =>
              let sum := total + line_length line in
              if in_coord_t sum then Ok (to_int sum)
              else Fault UndefinedBehaviour)
           lines_ init.

Definition length (lines_ : list (list Point)) : result Z :=
  accumulate_length lines_ 0.

End Length.

Section RemoveDegenerateVerts.

(** [dot] and [vSize] on [Point2LL] are declared outside the sources at
    hand. *)
Variable dot : Point -> Point -> Z.
Variable vSize : Point -> Z.

(** Whether [dynamic_cast<OpenPolyline*>] succeeds on the lines of the set:
    fixed by the type of line the set is instantiated with. *)
Variable for_polyline : bool.

Definition isDegenerate (last now next : Point) : bool :=
  let last_line := Point_sub now last in
  let next_line := Point_sub next now in
  bool_decide (dot last_line next_line
               = -1 * vSize last_line * vSize next_line).

(** The inner [while] loop, on the vector read from its back:
    [while (result.size() > 1 && isDegenerate(result[size - 2], result.back(), next)) result.pop_back()]. *)
Fixpoint pop_degenerate_from_back (next : Point) (backwards : list Point)
  : list Point :=
  match backwards with
  | b :: rest =>
      match rest with
      | a :: _ =>
          if isDegenerate a b next then pop_degenerate_from_back next rest
          else backwards
      | [] => backwards
      end
  | [] => backwards
  end.

Definition pop_degenerate (next : Point) (res : list Point) : list Point :=
  reverse (pop_degenerate_from_back next (reverse res)).

(** The loop over [idx] from [start_vertex] to [end_vertex], with the
    vector [result] (here [res]) and the flag [isChanged] as state; the
    [break] ends it. *)
Fixpoint scan_vertices (poly : list Point) (idxs : list nat)
    (res : list Point) (isChanged : bool) : result (list Point * bool) :=
  match idxs with
  | [] => Ok (res, isChanged)
  | idx :: idxs' =>
      last ← (if decide (res = []) then back poly else back res);
      if decide ((Datatypes.length poly ≤ idx + 1)%nat ∧ res = [])
      then Ok (res, isChanged)
      else
        next ←
          (if decide (Datatypes.length poly ≤ idx + 1)%nat
           then defined (res !! 0%nat)
           else defined (poly !! (idx + 1)%nat));
        now ← defined (poly !! idx);
        if isDegenerate last now next
        then scan_vertices poly idxs' (pop_degenerate next res) true
        else scan_vertices poly idxs' (res ++ [now]) isChanged
  end.

(** One line: the vertices before [start_vertex], the loop, the vertices
    from [end_vertex] on.  [poly.size() - 1] is computed on [size_t]; for an
    empty polyline the first loop reads [poly[0]]. *)
Definition degenerate_pass (poly : list Point)
  : result (list Point * bool) :=
  let start_vertex := if for_polyline then 1%nat else 0%nat in
  before ←
    (if for_polyline then p ← defined (poly !! 0%nat); Ok [p] else Ok []);
  let end_vertex :=
    if for_polyline then (Datatypes.length poly - 1)%nat
    else Datatypes.length poly in
  '(res, isChanged) ←
    scan_vertices poly (seq start_vertex (end_vertex - start_vertex))
                  before false;
  Ok (res ++ drop end_vertex poly, isChanged).

(** The loop over [poly_idx].  A removed line is replaced by the last line
    of the set, which the next round handles at the same index; every round
    either moves on or shortens the set, and [fuel] bounds the rounds
    ([None] when it runs out). *)
Fixpoint removeDegenerateVerts_from (fuel poly_idx : nat)
    (lines_ : list (list Point)) : option (result (list (list Point))) :=
  match lines_ !! poly_idx with
  | None => Some (Ok lines_)
  | Some poly =>
      match fuel with
      | O => None
      | S fuel' =>
          match degenerate_pass poly with
          | Fault f => Some (Fault f)
          | Ok (res, isChanged) =>
              if isChanged then
                if for_polyline || bool_decide (2 < Datatypes.length res)%nat
                then removeDegenerateVerts_from fuel' (S poly_idx)
                       (<[poly_idx := res]> lines_)
                else
                  match removeAt lines_ poly_idx with
                  | Fault f => Some (Fault f)
                  | Ok lines_ => removeDegenerateVerts_from fuel' poly_idx lines_
                  end
              else removeDegenerateVerts_from fuel' (S poly_idx) lines_
          end
      end
  end.

Definition removeDegenerateVerts (lines_ : list (list Point))
  : option (result (list (list Point))) :=
  removeDegenerateVerts_from (Datatypes.length lines_) 0 lines_.

End RemoveDegenerateVerts.

End LinesSet.
(** * Vocabulary of the properties *)

(** The endpoint that [adjustEdgeEnd] moves: the last point for UP, the first
    one otherwise. *)
Definition end_to_move (up_down : Direction) (P : list Point3) : option Point3 :=
  if decide (up_down = UP) then last P else head P.

(** The 2D length of the move from [t] to [destination]. *)
Definition move_length (t destination : Point3) : Z :=
  vSize (Point_sub (toPoint destination) (toPoint t)).

(** The bending point as [adjustEdgeEnd] computes it, coordinate by
    coordinate: [m] is the 2D length of the move, [n] the 2D length of the
    segment from the end to move [t] to its neighbour [a]. *)
Definition code_bend (t a destination : Point3) : Point3 :=
  let m := move_length t destination in
  let n := vSize (mkPoint (x a - x t) (y a - y t)) in
  mkPoint3 (x t + (x a - x t) * m ÷ 2 ÷ n)
           (y t + (y a - y t) * m ÷ 2 ÷ n)
           (z t + (z a - z t) * m ÷ 2 ÷ n).

(** The test that decides whether the bend is inserted. *)
Definition bend_is_kept (bend a destination : Point3) : Prop :=
  vSize2 (Point3_sub bend a) > 100 ∧ vSize2 (Point3_sub bend destination) > 100.

(** The bending point as the specification words it:
    [bend = t + dir * (m / 2) / n] with [n] the 3D length of the adjacent
    segment. *)
Definition spec_bend (t a destination : Point3) : Point3 :=
  let m := move_length t destination in
  let dir := Point3_sub a t in
  let n := Z.sqrt (vSize2 dir) in
  mkPoint3 (x t + x dir * (m ÷ 2) ÷ n)
           (y t + y dir * (m ÷ 2) ÷ n)
           (z t + z dir * (m ÷ 2) ÷ n).

(** (POLY): at least two points, z strictly increasing along the polyline. *)
Fixpoint z_increasing (P : list Point3) : Prop :=
  match P with
  | p :: rest =>
      match rest with
      | q :: _ => z p < z q ∧ z_increasing rest
      | [] => True
      end
  | [] => True
  end.

Definition POLY (P : list Point3) : Prop :=
  (2 ≤ length P)%nat ∧ z_increasing P.

(** The polyline that [getCellEdgeLocation] reads for the edge between
    [before] and [after]. *)
Definition shared_edge (net : Cross3DPrismEdgeNetwork)
    (before_ptr after_ptr : nat) (before after : Cell) : option (list Point3) :=
  if decide (depth after > depth before)
  then cell_to_left_edge_locations net !! after_ptr
  else cell_to_right_edge_locations net !! before_ptr.

(** The linear interpolation of [getCellEdgeLocation] between two points. *)
Definition interpolated (below above : Point3) (zq : Z) : Point :=
  mkPoint (x below + (x above - x below) * (zq - z below) ÷ (z above - z below))
          (y below + (y above - y below) * (zq - z below) ÷ (z above - z below)).

(** ** Example structures *)

Definition no_links : Direction -> list Link := fun _ => [].

Definition links (left right down up : list nat) : Direction -> list Link :=
  fun d =>
    mkLink <$> match d with
               | LEFT => left
               | RIGHT => right
               | DOWN => down
               | UP => up
               end.

Definition prism (from_edge to_edge : LineSegment) (z_min z_max : Z) : Prism :=
  mkPrism (mkTriangle from_edge to_edge) (mkRange z_min z_max) true.

Definition segment (x1 y1 x2 y2 : Z) : LineSegment :=
  mkLineSegment (mkPoint x1 y1) (mkPoint x2 y2).

(** Two cells of depth 0 side by side (0 left of 1), ten micrometres high,
    under two cells of depth 1 side by side (2 left of 3). *)
Definition small_cells : Cross3D :=
  mkCross3D
    [ mkCell (prism (segment 0 10 0 0) (segment 0 0 10 0) 0 10) 0
             (links [] [1%nat] [] [2%nat]);
      mkCell (prism (segment 0 0 10 0) (segment 20 0 20 10) 0 10) 0
             (links [0%nat] [] [] [3%nat]);
      mkCell (prism (segment 0 10 0 0) (segment 0 0 5 0) 10 20) 1
             (links [] [3%nat] [0%nat] []);
      mkCell (prism (segment 0 0 5 0) (segment 20 0 20 10) 10 20) 1
             (links [2%nat] [] [1%nat] []) ]
    [ [0%nat; 1%nat]; [2%nat; 3%nat] ].

(** Stand-ins for the two functions the construction is parametric in. *)
Definition no_intersection : LineSegment -> LineSegment -> Point :=
  fun _ _ => mkPoint 0 0.
Definition no_angle_check : Z -> Z -> bool := fun _ _ => true.

(** ** Neighbours picked by the oscillation constraint *)

(** The link to the "inner corner" vertical neighbour [N_V] of a cell along
    side [S]: the front of [adjacent[V]] for LEFT, the back otherwise. *)
Definition inner_corner_link (cell : Cell) (S V : Direction) : option Link :=
  if decide (S = LEFT) then head (adjacent_cells cell V)
  else last (adjacent_cells cell V).

(** The link to the lateral neighbour [N_VS] of [N_V]: the front of
    [N_V.adjacent[S]] for UP, the back otherwise. *)
Definition lateral_link (n_v : Cell) (S V : Direction) : option Link :=
  if decide (V = UP) then head (adjacent_cells n_v S)
  else last (adjacent_cells n_v S).

(** The map in which side [S] of a cell is stored. *)
Definition map_of_side (S : Direction) : EdgeMap :=
  if decide (S = LEFT) then LeftEdges else RightEdges.

(** The map in which the other lateral side is stored. *)
Definition map_of_other_side (S : Direction) : EdgeMap :=
  if decide (S = RIGHT) then LeftEdges else RightEdges.


(** A coarse cell 0 between its lateral neighbours 3 and 4, under the two
    finer cells 1 and 2; cell 5 is the right neighbour of cell 2. *)
Definition coarse_under_two_fine : Cross3D :=
  mkCross3D
    [ mkCell (prism (segment 0 0 0 1000) (segment 1000 0 1000 1000) 0 1000) 0
             (links [3%nat] [4%nat] [] [1%nat; 2%nat]);
      mkCell (prism (segment 0 0 0 1000) (segment 500 800 500 200) 1000 1500) 1
             (links [] [2%nat] [0%nat] []);
      mkCell (prism (segment 500 800 500 200) (segment 1000 1000 1000 500)
                    1000 1500) 1
             (links [1%nat] [5%nat] [0%nat] []);
      mkCell (prism (segment (-1000) 0 (-1000) 1000) (segment 0 0 0 1000)
                    0 1000) 0
             (links [] [0%nat] [] []);
      mkCell (prism (segment 1000 0 1000 1000) (segment 2000 0 2000 1000)
                    0 1000) 0
             (links [0%nat] [] [] [5%nat]);
      mkCell (prism (segment 1000 1000 1000 500) (segment 2000 1000 2000 500)
                    1000 1500) 1
             (links [2%nat] [] [4%nat] []) ]
    [ [0%nat; 3%nat; 4%nat]; [1%nat; 2%nat; 5%nat] ].

(** The crossing of a vertical first segment with a horizontal second one. *)
Definition axis_intersection : LineSegment -> LineSegment -> Point :=
  fun e1 e2 => mkPoint (X (from e1)) (Y (from e2)).

(** The edges of [coarse_under_two_fine] after the first pass. *)
Definition coarse_under_two_fine_edges : Cross3DPrismEdgeNetwork :=
  mkNetwork ∅
    (list_to_map
       [ (0%nat, [mkPoint3 1000 0 0; mkPoint3 1000 1000 1000]);
         (1%nat, [mkPoint3 500 800 1000; mkPoint3 500 200 1500]);
         (2%nat, [mkPoint3 1000 1000 1000; mkPoint3 1000 500 1500]);
         (3%nat, [mkPoint3 0 0 0; mkPoint3 0 1000 1000]) ]).

(** ** Ownership *)

(** The test of [addCellEdges] that makes a cell store a side. *)
Definition owns (s : Cross3D) (cell : Cell) (m : EdgeMap) : Prop :=
  match m with
  | LeftEdges => ∃ d : Z, getNeighborDepth s cell LEFT = Ok d ∧ depth cell > d
  | RightEdges => ∃ d : Z, getNeighborDepth s cell RIGHT = Ok d ∧ depth cell >= d
  end.

(** What the first pass has stored once the cells [processed] are done: an
    entry for exactly those of them that pass the test. *)
Definition built (s : Cross3D) (processed : list nat)
    (net : Cross3DPrismEdgeNetwork) : Prop :=
  ∀ (m : EdgeMap) (c : nat),
    is_Some (edges net m !! c)
    ↔ c ∈ processed ∧ ∃ cell : Cell, cell_data s !! c = Some cell ∧ owns s cell m.

(** Every stored polyline has at least two points. *)
Definition all_long (net : Cross3DPrismEdgeNetwork) : Prop :=
  ∀ (m : EdgeMap) (c : nat) (P : list Point3),
    edges net m !! c = Some P → (2 ≤ length P)%nat.

(** The first pass got through the two depth probes of every processed cell. *)
Definition probed (s : Cross3D) (processed : list nat) : Prop :=
  ∀ c : nat, c ∈ processed →
    ∃ (cell : Cell) (left_depth right_depth : Z),
      cell_data s !! c = Some cell
      ∧ getNeighborDepth s cell LEFT = Ok left_depth
      ∧ getNeighborDepth s cell RIGHT = Ok right_depth.

(** The cells the construction visits. *)
Definition visited (s : Cross3D) (c : nat) : Prop :=
  ∃ layer : list nat, layer ∈ getDepthOrdered s ∧ c ∈ layer.

(** Two networks store edges for the same cells. *)
Definition same_owners (net net' : Cross3DPrismEdgeNetwork) : Prop :=
  ∀ (m : EdgeMap) (c : nat),
    is_Some (edges net' m !! c) ↔ is_Some (edges net m !! c).

(** A cell of the deepest representable depth without lateral neighbours. *)
Definition deepest_cell_alone : Cross3D :=
  mkCross3D
    [ mkCell (prism (segment 0 0 0 10) (segment 10 0 10 10) 0 10) CHAR_MAX
             no_links ]
    (replicate 127 [] ++ [[0%nat]]).

(** ** The reference edge of the oscillation constraint *)

(** The map and the cell in which the routine looks up the reference edge;
    [None] when it returns (or stops) before any lookup. *)
Definition oscillation_reference (s : Cross3D) (cell : Cell) (S V : Direction)
  : option (EdgeMap * nat) :=
  l_v ← inner_corner_link cell S V;
  n_v ← cell_data s !! to_index l_v;
  l_vs ← lateral_link n_v S V;
  n_vs ← cell_data s !! to_index l_vs;
  if decide (depth cell >= Z.max (depth n_v) (depth n_vs)) then None
  else if decide (depth n_v > depth n_vs ∨ (S = RIGHT ∧ depth n_v = depth n_vs))
       then Some (map_of_side S, to_index l_v)
       else Some (map_of_other_side S, to_index l_vs).

(** Layer [k] of the depth-ordered cells holds cells of depth [k]. *)
Definition layered (s : Cross3D) : Prop :=
  ∀ (k : nat) (layer : list nat) (c : nat) (cell : Cell),
    getDepthOrdered s !! k = Some layer → c ∈ layer →
    cell_data s !! c = Some cell → depth cell = Z.of_nat k.

(** A cell of depth 0 (cell 0) above a cell of depth 1 (cell 1) whose list
    of RIGHT neighbours starts with a deeper cell (cell 2, depth 2) and ends
    with a cell of its own depth (cell 3). *)
Definition mixed_right_neighbours : Cross3D :=
  mkCross3D
    [ mkCell (prism (segment 0 0 0 100) (segment 100 0 100 100) 100 200) 0
             (links [] [4%nat] [1%nat] []);
      mkCell (prism (segment 0 0 0 100) (segment 100 100 100 0) 0 100) 1
             (links [] [2%nat; 3%nat] [] [0%nat]);
      mkCell (prism (segment 100 100 100 0) (segment 150 100 150 0) 0 50) 2
             (links [1%nat] [] [] []);
      mkCell (prism (segment 100 100 100 0) (segment 200 100 200 0) 50 100) 1
             (links [1%nat] [] [] []);
      mkCell (prism (segment 100 0 100 100) (segment 200 0 200 100) 100 200) 0
             (links [0%nat] [] [] []) ]
    [ [0%nat; 4%nat]; [1%nat; 3%nat]; [2%nat] ].

(** Two cells of depth 0 side by side (0 left of 1), of height [h], under
    two cells of depth 1 side by side (2 left of 3); [right0] and [right2]
    are the right side edges of the cells 0 and 2. *)
Definition stacked (right0 right2 : LineSegment) (h : Z) : Cross3D :=
  mkCross3D
    [ mkCell (prism (segment 0 10 0 0) right0 0 h) 0
             (links [] [1%nat] [] [2%nat]);
      mkCell (prism right0 (segment 500 0 500 10) 0 h) 0
             (links [0%nat] [] [] [3%nat]);
      mkCell (prism (segment 0 10 0 0) right2 h (2 * h)) 1
             (links [] [3%nat] [0%nat] []);
      mkCell (prism right2 (segment 500 0 500 10) h (2 * h)) 1
             (links [2%nat] [] [1%nat] []) ]
    [ [0%nat; 1%nat]; [2%nat; 3%nat] ].


(** ** Inclination *)


(** The test of [debugCheckInclination] on a segment. *)
Definition passes_angle_check (angle_deg_gt_35 : Z -> Z -> bool)
    (p q : Point3) : Prop :=
  angle_deg_gt_35 (z q - z p) (vSize (toPoint (Point3_sub q p))) = true.


(** Right edges that meet at the boundary between the cells 0 and 2. *)
Definition aligned_cells : Cross3D :=
  stacked (segment 0 0 50 0) (segment 50 0 100 0) 100.

(** A stand-in for the angle test, in integers: a rise of more than 7/10 of
    the 2D distance. *)
Definition slope_above_seven_tenths : Z -> Z -> bool :=
  fun dz xy => (0 <? dz) && (7 * xy <? 10 * dz).


(** ** Further vocabulary *)

(** The end of a polyline that [adjustEdgeEnd] leaves alone: the first point
    for UP, the last one otherwise. *)
Definition far_end (up_down : Direction) (P : list Point3) : option Point3 :=
  if decide (up_down = UP) then head P else last P.

(** The neighbour of the end to move inside the polyline
    ([lower_edge_location]): the last but one point for UP, the second point
    otherwise. *)
Definition adjacent_point (up_down : Direction) (P : list Point3)
  : option Point3 :=
  if decide (up_down = UP)
  then (if decide (2 ≤ length P)%nat then P !! (length P - 2)%nat else None)
  else P !! 1%nat.

(** The 2D length of the segment between two points of a polyline. *)
Definition xy_length (a t : Point3) : Z :=
  vSize (mkPoint (x a - x t) (y a - y t)).

(** What [adjustEdgeEnd] needs in order to return: an end to move and,
    unless that end is the destination already, a neighbour of it that is not
    straight above or below it. *)
Definition can_adjust (P : list Point3) (V : Direction) (d : Point3) : Prop :=
  ∃ t : Point3,
    end_to_move V P = Some t
    ∧ (t = d ∨ ∃ a : Point3, adjacent_point V P = Some a ∧ xy_length a t ≠ 0).

(** A network that stores one right edge, for cell 2 of [small_cells]. *)
Definition one_edge_network : Cross3DPrismEdgeNetwork :=
  mkNetwork ∅ {[ 2%nat := [mkPoint3 0 0 10; mkPoint3 5 0 20] ]}.

(** The link to the neighbour on side [S] that [getEdge] looks at: the back
    of the list for UP, the front otherwise. *)
Definition side_link (cell : Cell) (S V : Direction) : option Link :=
  if decide (V = UP) then last (adjacent_cells cell S)
  else head (adjacent_cells cell S).

(** The polyline of the edge between a cell and its neighbour on side [S],
    as [getCellEdgeLocation] selects it: the neighbour is the cell `before'
    for the LEFT side and the cell `after' for the RIGHT side. *)
Definition edge_with_neighbour (net : Cross3DPrismEdgeNetwork)
    (cell_ptr neighbour_ptr : nat) (cell neighbour : Cell) (S : Direction)
  : option (list Point3) :=
  if decide (S = LEFT)
  then shared_edge net neighbour_ptr cell_ptr neighbour cell
  else shared_edge net cell_ptr neighbour_ptr cell neighbour.

(** The initial polyline of [addCellEdge]: the side edge of the triangle,
    swapped when the cell is not expanding, lifted to the z range. *)
Definition straight_edge (cell : Cell) (S : Direction) : list Point3 :=
  let edge :=
    if decide (S = LEFT) then getFromEdge (triangle (elem cell))
    else getToEdge (triangle (elem cell)) in
  let edge :=
    if is_expanding (elem cell) then edge
    else mkLineSegment (to edge) (from edge) in
  [ mkPoint3 (X (from edge)) (Y (from edge)) (min (z_range (elem cell)));
    mkPoint3 (X (to edge)) (Y (to edge)) (max (z_range (elem cell))) ].

(** The side a map stores. *)
Definition side_of_map (m : EdgeMap) : Direction :=
  match m with
  | LeftEdges => LEFT
  | RightEdges => RIGHT
  end.

(** Every edge of the first network is in the second one, unchanged. *)
Definition edges_kept (net net' : Cross3DPrismEdgeNetwork) : Prop :=
  ∀ (m : EdgeMap) (c : nat) (P : list Point3),
    edges net m !! c = Some P → edges net' m !! c = Some P.

(** ** Vocabulary for LinesSet *)

(** The sum of the lengths of the lines of a set. *)
Definition total_length (line_length : list Point -> Z)
    (lines_ : list (list Point)) : Z :=
  foldr (fun line total => line_length line + total) 0 lines_.

(** Modelled from the spec: [dot] on 2D points is declared outside the
    sources at hand; it is the dot product.  The examples use it. *)
Definition dot (a b : Point) : Z := X a * X b + Y a * Y b.

(** ** Vocabulary of the ownership rule *)

(** The LEFT or RIGHT neighbour of a cell whose depth decides the ownership
    of that side: the cell that the front link of the side list leads to. *)
Definition lateral_neighbour (s : Cross3D) (cell : Cell) (S : Direction)
  : option Cell :=
  l ← head (adjacent_cells cell S);
  cell_data s !! to_index l.

(** A cell of depth 0 (cell 0) left of a cell of depth 1 (cell 1), with no
    other neighbours. *)
Definition fine_beside_coarse : Cross3D :=
  mkCross3D
    [ mkCell (prism (segment 0 0 0 100) (segment 100 0 100 100) 0 100) 0
             (links [] [1%nat] [] []);
      mkCell (prism (segment 100 0 100 100) (segment 150 0 150 100) 0 100) 1
             (links [0%nat] [] [] []) ]
    [ [0%nat]; [1%nat] ].



(** The cells in the LEFT list of a visited cell have one depth, and so
    have the cells in its RIGHT list. *)
Definition uniform_sides (s : Cross3D) : Prop :=
  ∀ (c : nat) (cell : Cell) (S : Direction) (l l' : Link) (n n' : Cell),
    visited s c → cell_data s !! c = Some cell →
    S = LEFT ∨ S = RIGHT →
    l ∈ adjacent_cells cell S → l' ∈ adjacent_cells cell S →
    cell_data s !! to_index l = Some n → cell_data s !! to_index l' = Some n' →
    depth n = depth n'.


(** ** Vocabulary of the resolver examples *)


(** * Properties *)

(** ** Reasoning about runs *)

Lemma bind_Ok {A B : Type} (r : result A) (k : A -> result B) (b : B) :
  r ≫= k = Ok b ↔ ∃ a, r = Ok a ∧ k a = Ok b.
Proof.
  destruct r as [a|f]; simpl; split.
  - intros H. exists a. auto.
  - intros (a' & Ha & Hk). congruence.
  - intros H. discriminate.
  - intros (a' & Ha & _). discriminate.
Qed.

Lemma assert_Ok (b : bool) (u : unit) : assert b = Ok u ↔ b = true.
Proof. destruct b, u; simpl; split; congruence. Qed.

Lemma defined_Ok {A : Type} (o : option A) (a : A) :
  defined o = Ok a ↔ o = Some a.
Proof. destruct o; simpl; split; congruence. Qed.

Lemma find_asserted_Ok (es : gmap nat (list Point3)) (k : nat) (e : list Point3) :
  find_asserted es k = Ok e ↔ es !! k = Some e.
Proof. unfold find_asserted. destruct (es !! k); split; congruence. Qed.

(** Decompose a hypothesis saying that a sequence of steps returned. *)
Ltac run_inv H :=
  repeat match type of H with
  | _ ≫= _ = Ok _ =>
      let a := fresh "v" in
      let Ha := fresh "Hv" in
      apply bind_Ok in H; destruct H as (a & Ha & H)
  end.

(** ** Geometry facts *)

Lemma vSize_zero (p : Point) : vSize p = 0 ↔ p = mkPoint 0 0.
Proof.
  destruct p as [a b]. unfold vSize. simpl. split.
  - intros H.
    assert (Hn : 0 ≤ a * a + b * b) by nia.
    pose proof (Z.sqrt_spec _ Hn) as Hs. cbv zeta in Hs. rewrite H in Hs.
    assert (Ha : a * a = 0) by nia. assert (Hb : b * b = 0) by nia.
    apply Z.mul_eq_0 in Ha, Hb. f_equal; tauto.
  - intros H. injection H as -> ->. reflexivity.
Qed.

Lemma move_length_zero (t d : Point3) :
  move_length t d = 0 ↔ x d = x t ∧ y d = y t.
Proof.
  unfold move_length. rewrite vSize_zero.
  destruct t, d; unfold Point_sub, toPoint; simpl. split.
  - intros H. injection H as H1 H2. lia.
  - intros [-> ->]. f_equal; lia.
Qed.

(** ** Adjust Edge End: the no-op case (C5) *)

(** C5, as stated, fails: a destination straight above the end to move has a
    2D move length of 0, yet the end is moved and a bend is inserted. *)
Lemma adjustEdgeEnd_zero_move_changes :
  let P := [mkPoint3 0 0 0; mkPoint3 100 0 100] in
  let destination := mkPoint3 100 0 200 in
  end_to_move UP P = Some (mkPoint3 100 0 100)
  ∧ move_length (mkPoint3 100 0 100) destination = 0
  ∧ adjustEdgeEnd P UP destination
    = Ok [mkPoint3 0 0 0; mkPoint3 100 0 100; mkPoint3 100 0 200]
  ∧ adjustEdgeEnd P UP destination ≠ Ok P.
Proof. vm_compute. repeat split; congruence. Qed.

(** C5, amended: when the 2D move length is 0 and the destination has the
    z of the end to move as well (so the destination is that end), the
    polyline is returned unchanged. *)
Theorem adjustEdgeEnd_noop (P : list Point3) (V : Direction)
    (t destination : Point3) :
  end_to_move V P = Some t →
  move_length t destination = 0 →
  z destination = z t →
  adjustEdgeEnd P V destination = Ok P.
Proof.
  intros Ht Hm Hz. apply move_length_zero in Hm as [Hx Hy].
  assert (t = destination) as <-.
  { destruct t, destination; simpl in *; congruence. }
  unfold adjustEdgeEnd, end_to_move, front, back in *.
  destruct (decide (V = UP)); rewrite Ht; simpl;
    destruct (decide (t = t)); congruence.
Qed.

Lemma adjustEdgeEnd_noop_witness :
  adjustEdgeEnd [mkPoint3 0 0 0; mkPoint3 100 0 100] UP (mkPoint3 100 0 100)
  = Ok [mkPoint3 0 0 0; mkPoint3 100 0 100].
Proof.
  apply (adjustEdgeEnd_noop _ UP (mkPoint3 100 0 100)); reflexivity.
Defined.

(** ** Adjust Edge End: the bend policy (C4) *)

Lemma last_two (pre : list Point3) (a t : Point3) :
  last (pre ++ [a; t]) = Some t.
Proof. change [a; t] with ([a] ++ [t]). by rewrite (assoc_L (++)), last_snoc. Qed.

Lemma bending_point_of_code (t a d : Point3) :
  vSize (toPoint (Point3_sub a t)) ≠ 0 →
  bending_point_of t a d = Ok (code_bend t a d).
Proof.
  intros Hn. unfold bending_point_of, Point3_div.
  destruct (decide (2 = 0)) as [|_]; [lia|]. simpl.
  destruct (decide _) as [E|_]; [contradiction|]. simpl.
  reflexivity.
Qed.

(** C4, as stated, fails: the length [n] that divides is the 2D length of the
    adjacent segment, not its 3D length.  With the end (100,0,100), its
    neighbour (0,0,0) and the destination (140,30,100), the code inserts
    (75,0,75); with the 3D length the bend would be (83,0,83). *)
Lemma adjustEdgeEnd_bend_uses_2d_length :
  let t := mkPoint3 100 0 100 in
  let a := mkPoint3 0 0 0 in
  let destination := mkPoint3 140 30 100 in
  destination ≠ t
  ∧ adjustEdgeEnd [a; t] UP destination = Ok [a; mkPoint3 75 0 75; destination]
  ∧ spec_bend t a destination = mkPoint3 83 0 83
  ∧ adjustEdgeEnd [a; t] UP destination
    ≠ Ok [a; spec_bend t a destination; destination].
Proof. vm_compute. repeat split; congruence. Qed.

(** A vertical adjacent segment has 2D length 0: the division is undefined
    and no end is moved. *)
Example adjustEdgeEnd_vertical_segment :
  adjustEdgeEnd [mkPoint3 0 0 0; mkPoint3 0 0 100] UP (mkPoint3 140 30 100)
  = Fault UndefinedBehaviour.
Proof. reflexivity. Qed.

(** What [adjustEdgeEnd] returns for UP, on a polyline that ends with [a]
    and the end to move [t]. *)
Lemma adjustEdgeEnd_up (pre : list Point3) (t a destination : Point3) :
  destination ≠ t →
  vSize (mkPoint (x a - x t) (y a - y t)) ≠ 0 →
  adjustEdgeEnd (pre ++ [a; t]) UP destination
  = Ok (if decide (bend_is_kept (code_bend t a destination) a destination)
        then pre ++ [a; code_bend t a destination; destination]
        else pre ++ [a; destination]).
Proof.
  intros Hd Hn. unfold adjustEdgeEnd, back.
  destruct (decide (UP = UP)) as [_|?]; [|done].
  rewrite last_two. simpl.
  destruct (decide (t = destination)) as [?|_]; [congruence|].
  destruct (decide (2 ≤ length (pre ++ [a; t]))%nat) as [_|Hl];
    [|rewrite length_app in Hl; simpl in Hl; lia].
  replace (length (pre ++ [a; t]) - 2)%nat with (length pre + 0)%nat
    by (rewrite length_app; simpl; lia).
  rewrite lookup_app_r by lia.
  replace (length pre + 0 - length pre)%nat with 0%nat by lia. simpl.
  rewrite bending_point_of_code by exact Hn. simpl.
  unfold bend_is_kept, set_end, insert_at.
  destruct (decide (UP = UP)) as [_|?]; [|done].
  assert (Hset : <[(length (pre ++ [a; t]) - 1)%nat := destination]> (pre ++ [a; t])
                 = pre ++ [a; destination]).
  { replace (length (pre ++ [a; t]) - 1)%nat with (length pre + 1)%nat
      by (rewrite length_app; simpl; lia).
    by rewrite insert_app_r. }
  rewrite Hset.
  replace (10 * 10) with 100 by lia.
  destruct (decide _); [|reflexivity].
  f_equal.
  replace (length (pre ++ [a; destination]) - 1)%nat with (length (pre ++ [a]))
    by (rewrite !length_app; simpl; lia).
  change [a; destination] with ([a] ++ [destination]).
  rewrite (assoc_L (++)).
  rewrite take_app_length, drop_app_length.
  by rewrite <- (assoc_L (++)).
Qed.

(** What [adjustEdgeEnd] returns for another direction, on a polyline that
    starts with the end to move [t] and [a]. *)
Lemma adjustEdgeEnd_down (rest : list Point3) (V : Direction)
    (t a destination : Point3) :
  V ≠ UP →
  destination ≠ t →
  vSize (mkPoint (x a - x t) (y a - y t)) ≠ 0 →
  adjustEdgeEnd (t :: a :: rest) V destination
  = Ok (if decide (bend_is_kept (code_bend t a destination) a destination)
        then destination :: code_bend t a destination :: a :: rest
        else destination :: a :: rest).
Proof.
  intros HV Hd Hn. unfold adjustEdgeEnd, front.
  destruct (decide (V = UP)) as [?|_]; [done|]. simpl.
  destruct (decide (t = destination)) as [?|_]; [congruence|]. simpl.
  rewrite bending_point_of_code by exact Hn. simpl.
  unfold bend_is_kept, set_end, insert_at.
  destruct (decide (V = UP)) as [?|_]; [done|]. simpl.
  replace (10 * 10) with 100 by lia.
  destruct (decide _); reflexivity.
Qed.

(** C4, amended: for a destination other than the end to move [t] and an
    adjacent segment whose 2D length [n] is not 0, the bend is
    [t + ((a - t) * m / 2) / n], coordinate by coordinate with truncating
    division, [m] the 2D length of the move and [n] the 2D length of the
    adjacent segment; it is inserted next to the moved end iff both squared
    3D distances, to [a] and to the destination, exceed 100; the end is set
    to the destination in both cases. *)
Theorem adjustEdgeEnd_bend_policy (pre rest : list Point3) (V : Direction)
    (t a destination : Point3) :
  destination ≠ t →
  vSize (mkPoint (x a - x t) (y a - y t)) ≠ 0 →
  let bend := code_bend t a destination in
  adjustEdgeEnd (pre ++ [a; t]) UP destination
  = Ok (if decide (bend_is_kept bend a destination)
        then pre ++ [a; bend; destination]
        else pre ++ [a; destination])
  ∧ (V ≠ UP →
     adjustEdgeEnd (t :: a :: rest) V destination
     = Ok (if decide (bend_is_kept bend a destination)
           then destination :: bend :: a :: rest
           else destination :: a :: rest)).
Proof.
  intros Hd Hn bend. split.
  - by apply adjustEdgeEnd_up.
  - intros HV. by apply adjustEdgeEnd_down.
Qed.

Lemma adjustEdgeEnd_bend_policy_witness :
  adjustEdgeEnd [mkPoint3 0 0 0; mkPoint3 100 0 100] UP (mkPoint3 140 30 100)
  = Ok [mkPoint3 0 0 0; mkPoint3 75 0 75; mkPoint3 140 30 100]
  ∧ adjustEdgeEnd [mkPoint3 100 0 100; mkPoint3 0 0 0] DOWN (mkPoint3 140 30 100)
    = Ok [mkPoint3 140 30 100; mkPoint3 75 0 75; mkPoint3 0 0 0].
Proof.
  assert (Hd : mkPoint3 140 30 100 ≠ mkPoint3 100 0 100) by discriminate.
  assert (Hn : vSize (mkPoint (0 - 100) (0 - 0)) ≠ 0) by (vm_compute; discriminate).
  destruct (adjustEdgeEnd_bend_policy [] [] DOWN (mkPoint3 100 0 100)
              (mkPoint3 0 0 0) (mkPoint3 140 30 100) Hd Hn) as [Hup Hdown].
  split; [exact Hup | apply Hdown; discriminate].
Defined.

(** ** Edge Query: the scan (C3) *)

Lemma z_increasing_lookup (P : list Point3) (i j : nat) (p q : Point3) :
  z_increasing P → (i < j)%nat → P !! i = Some p → P !! j = Some q → z p < z q.
Proof.
  revert i j p. induction P as [|a P IH]; intros i j p Hm Hij Hi Hj; [done|].
  destruct P as [|b P].
  { destruct i, j; simpl in *; try done; lia. }
  destruct Hm as [Hab Hm]. destruct j as [|j]; [lia|].
  destruct i as [|i].
  - simpl in Hi. injection Hi as <-. simpl in Hj.
    destruct j as [|j].
    + simpl in Hj. injection Hj as <-. exact Hab.
    + assert (z b < z q); [|lia].
      apply (IH 0%nat (S j) b Hm); [lia|done|exact Hj].
  - simpl in Hi, Hj. apply (IH i j p Hm); [lia|exact Hi|exact Hj].
Qed.

Lemma interpolate_run (below above : Point3) (zq : Z) :
  z above ≠ z below →
  interpolate below above zq
  = if decide (x above = x below ∧ y above = y below)
    then Fault AssertionFailed
    else Ok (interpolated below above zq).
Proof.
  intros Hz. unfold interpolate, interpolated, Point_div, Point_mul, Point_add.
  destruct (decide (x above = x below ∧ y above = y below)) as [[Hx Hy]|Hne].
  - rewrite bool_decide_eq_false_2; [reflexivity|].
    intros Hp. apply Hp. f_equal; lia.
  - rewrite bool_decide_eq_true_2.
    + simpl. destruct (decide (z above - z below = 0)); [lia|]. reflexivity.
    + intros Hp. injection Hp as Hx Hy. apply Hne. lia.
Qed.

(** The scan stops at the first pair whose upper point is not below [zq];
    such a pair is reached whenever [zq] is not above the last point. *)
Lemma scan_edge_stops (P : list Point3) (zq : Z) (last_pt : Point3) :
  (2 ≤ length P)%nat → last P = Some last_pt → zq ≤ z last_pt →
  ∃ (i : nat) (below above : Point3),
    P !! i = Some below ∧ P !! S i = Some above ∧ zq ≤ z above
    ∧ (i ≠ 0%nat → z below < zq)
    ∧ scan_edge P zq = interpolate below above zq.
Proof.
  induction P as [|p P IH]; intros Hlen Hlast Hz; [simpl in Hlen; lia|].
  destruct P as [|q P]; [simpl in Hlen; lia|].
  simpl scan_edge. destruct (decide (zq ≤ z q)) as [Hq|Hq].
  - exists 0%nat, p, q. repeat split; try done.
  - destruct P as [|r P].
    { simpl in Hlast. injection Hlast as <-. lia. }
    destruct IH as (i & below & above & Hi & HSi & Hab & Hbel & Hscan).
    + simpl. lia.
    + exact Hlast.
    + exact Hz.
    + exists (S i), below, above. repeat split; try done.
      intros _. destruct i as [|i].
      * simpl in Hi. injection Hi as <-. lia.
      * apply Hbel. lia.
Qed.

(** Above the last point the scan never stops and reads past the end. *)
Lemma scan_edge_above (P : list Point3) (zq : Z) :
  (∀ (i : nat) (p : Point3), P !! S i = Some p → z p < zq) →
  scan_edge P zq = Fault UndefinedBehaviour.
Proof.
  induction P as [|p P IH]; intros H; [done|].
  destruct P as [|q P]; [done|].
  simpl scan_edge. destruct (decide (zq ≤ z q)) as [Hq|Hq].
  - specialize (H 0%nat q eq_refl). lia.
  - apply IH. intros i r Hr. apply (H (S i) r). exact Hr.
Qed.

Lemma getCellEdgeLocation_run (s : Cross3D) (net : Cross3DPrismEdgeNetwork)
    (before_ptr after_ptr : nat) (before after : Cell) (P : list Point3) (zq : Z) :
  cell_data s !! before_ptr = Some before →
  cell_data s !! after_ptr = Some after →
  shared_edge net before_ptr after_ptr before after = Some P →
  (2 ≤ length P)%nat →
  getCellEdgeLocation s net before_ptr after_ptr zq = scan_edge P zq.
Proof.
  intros Hb Ha HP Hlen. unfold getCellEdgeLocation, cell_at, shared_edge in *.
  rewrite Hb, Ha. simpl.
  assert (Hfind : (if decide (depth after > depth before)
                   then find_asserted (cell_to_left_edge_locations net) after_ptr
                   else find_asserted (cell_to_right_edge_locations net) before_ptr)
                  = Ok P).
  { destruct (decide _); apply find_asserted_Ok; exact HP. }
  rewrite Hfind. simpl.
  rewrite bool_decide_eq_true_2 by exact Hlen. reflexivity.
Qed.

(** C3, as stated, fails on the network built from [small_cells]: the
    oscillation constraint makes the right edge of cell 0 vertical, so a query
    at z = 5, within that edge, fails the assertion on the edge direction. *)
Lemma getCellEdgeLocation_asserts_in_range :
  ∃ net : Cross3DPrismEdgeNetwork,
    construct small_cells no_intersection no_angle_check false = Ok net
    ∧ cell_to_right_edge_locations net !! 0%nat
      = Some [mkPoint3 0 0 0; mkPoint3 0 0 10]
    ∧ POLY [mkPoint3 0 0 0; mkPoint3 0 0 10]
    ∧ 0 ≤ 5 ≤ 10
    ∧ getCellEdgeLocation small_cells net 0 1 5 = Fault AssertionFailed.
Proof.
  destruct (construct small_cells no_intersection no_angle_check false)
    as [net|f] eqn:E; [|vm_compute in E; discriminate].
  exists net. split; [reflexivity|].
  vm_compute in E. injection E as <-.
  vm_compute. repeat split; lia || congruence.
Qed.

(** C3, amended: for a stored polyline satisfying (POLY) and a z between
    the z of its first and last points, the scan stops at a consecutive pair
    that brackets z, without reading past the end; the interpolated 2D point
    is returned when the two points of that pair differ in x or y, and the
    assertion on the edge direction fails when they do not. *)
Theorem getCellEdgeLocation_scan (s : Cross3D) (net : Cross3DPrismEdgeNetwork)
    (before_ptr after_ptr : nat) (before after : Cell)
    (P : list Point3) (first_pt last_pt : Point3) (zq : Z) :
  cell_data s !! before_ptr = Some before →
  cell_data s !! after_ptr = Some after →
  shared_edge net before_ptr after_ptr before after = Some P →
  POLY P →
  head P = Some first_pt →
  last P = Some last_pt →
  z first_pt ≤ zq ≤ z last_pt →
  ∃ (i : nat) (below above : Point3),
    P !! i = Some below ∧ P !! S i = Some above
    ∧ z below ≤ zq ≤ z above
    ∧ getCellEdgeLocation s net before_ptr after_ptr zq
      = if decide (x above = x below ∧ y above = y below)
        then Fault AssertionFailed
        else Ok (interpolated below above zq).
Proof.
  intros Hb Ha HP [Hlen Hmono] Hfirst Hlast [Hlo Hhi].
  destruct (scan_edge_stops P zq last_pt Hlen Hlast Hhi)
    as (i & below & above & Hi & HSi & Hab & Hbel & Hscan).
  exists i, below, above.
  assert (Hlt : z below < z above).
  { apply (z_increasing_lookup P i (S i)); auto. }
  repeat split; try done.
  - destruct i as [|i]; [|lia].
    destruct P; simpl in *; congruence.
  - rewrite (getCellEdgeLocation_run s net before_ptr after_ptr before after P)
      by done.
    rewrite Hscan. apply interpolate_run. lia.
Qed.

Lemma getCellEdgeLocation_scan_witness :
  getCellEdgeLocation small_cells
    (mkNetwork ∅ {[ 2%nat := [mkPoint3 0 0 10; mkPoint3 5 0 20] ]}) 2 3 15
  = Ok (mkPoint 2 0).
Proof.
  set (net := mkNetwork ∅ {[ 2%nat := [mkPoint3 0 0 10; mkPoint3 5 0 20] ]}).
  set (c2 := mkCell (prism (segment 0 10 0 0) (segment 0 0 5 0) 10 20) 1
                    (links [] [3%nat] [0%nat] [])).
  set (c3 := mkCell (prism (segment 0 0 5 0) (segment 20 0 20 10) 10 20) 1
                    (links [2%nat] [] [1%nat] [])).
  assert (HP : shared_edge net 2 3 c2 c3
               = Some [mkPoint3 0 0 10; mkPoint3 5 0 20])
    by (vm_compute; reflexivity).
  assert (Hpoly : POLY [mkPoint3 0 0 10; mkPoint3 5 0 20])
    by (split; simpl; lia).
  assert (Hz15 : z (mkPoint3 0 0 10) ≤ 15 ≤ z (mkPoint3 5 0 20))
    by (simpl; lia).
  destruct (getCellEdgeLocation_scan small_cells net 2 3 c2 c3 _
              (mkPoint3 0 0 10) (mkPoint3 5 0 20) 15
              eq_refl eq_refl HP Hpoly eq_refl eq_refl Hz15)
    as (i & below & above & Hi & HSi & Hz & Hq).
  destruct i as [|[|i]]; simpl in Hi, HSi; try discriminate.
  injection Hi as <-. injection HSi as <-.
  etransitivity; [exact Hq|]. reflexivity.
Defined.

(** Outside the polyline.  Above the last point the scan reads past the end
    of the polyline before the closing assertion could be reached. *)
Lemma getCellEdgeLocation_above (s : Cross3D) (net : Cross3DPrismEdgeNetwork)
    (before_ptr after_ptr : nat) (before after : Cell)
    (P : list Point3) (last_pt : Point3) (zq : Z) :
  cell_data s !! before_ptr = Some before →
  cell_data s !! after_ptr = Some after →
  shared_edge net before_ptr after_ptr before after = Some P →
  POLY P →
  last P = Some last_pt →
  z last_pt < zq →
  getCellEdgeLocation s net before_ptr after_ptr zq = Fault UndefinedBehaviour.
Proof.
  intros Hb Ha HP [Hlen Hmono] Hlast Hz.
  rewrite (getCellEdgeLocation_run s net before_ptr after_ptr before after P)
    by done.
  apply scan_edge_above. intros i p Hp.
  assert (z p ≤ z last_pt); [|lia].
  rewrite last_lookup in Hlast.
  destruct (decide (S i = pred (length P))) as [Heq|Hne].
  - rewrite Heq in Hp. assert (p = last_pt) by congruence. subst. lia.
  - apply lookup_lt_Some in Hp as Hlt.
    assert (z p < z last_pt); [|lia].
    apply (z_increasing_lookup P (S i) (pred (length P))); auto. lia.
Qed.

(** Below the first point the scan stops at the first pair. *)
Lemma getCellEdgeLocation_below (s : Cross3D) (net : Cross3DPrismEdgeNetwork)
    (before_ptr after_ptr : nat) (before after : Cell)
    (P : list Point3) (first_pt : Point3) (zq : Z) :
  cell_data s !! before_ptr = Some before →
  cell_data s !! after_ptr = Some after →
  shared_edge net before_ptr after_ptr before after = Some P →
  POLY P →
  head P = Some first_pt →
  zq < z first_pt →
  ∃ second : Point3,
    P !! 1%nat = Some second
    ∧ getCellEdgeLocation s net before_ptr after_ptr zq
      = if decide (x second = x first_pt ∧ y second = y first_pt)
        then Fault AssertionFailed
        else Ok (interpolated first_pt second zq).
Proof.
  intros Hb Ha HP [Hlen Hmono] Hfirst Hz.
  rewrite (getCellEdgeLocation_run s net before_ptr after_ptr before after P)
    by done.
  destruct P as [|p [|q P]]; simpl in Hlen; try lia.
  simpl in Hfirst. injection Hfirst as <-.
  exists q. split; [reflexivity|]. simpl scan_edge.
  destruct Hmono as [Hpq _].
  destruct (decide (zq ≤ z q)) as [_|Hn]; [|lia].
  apply interpolate_run. lia.
Qed.

(** ** Oscillation constraint: the cases without constraint (C6) *)

(** C6: the oscillation routine returns the polyline unchanged, whatever the
    maps hold, when [adjacent[V]] is empty, and when the cell is at least as
    deep as both the inner-corner vertical neighbour [N_V] and its lateral
    neighbour [N_VS]. *)
Theorem applyOscillationConstraints_no_constraint (s : Cross3D)
    (net : Cross3DPrismEdgeNetwork) (cell : Cell) (S V : Direction)
    (edge_locations : list Point3) :
  (adjacent_cells cell V = []
   ∨ ∃ (l_v l_vs : Link) (n_v n_vs : Cell),
       inner_corner_link cell S V = Some l_v
       ∧ cell_data s !! to_index l_v = Some n_v
       ∧ lateral_link n_v S V = Some l_vs
       ∧ cell_data s !! to_index l_vs = Some n_vs
       ∧ depth cell >= Z.max (depth n_v) (depth n_vs)) →
  applyOscillationConstraints s net cell S V edge_locations = Ok edge_locations.
Proof.
  intros [Hempty | (l_v & l_vs & n_v & n_vs & Hv & Hnv & Hvs & Hnvs & Hdepth)];
    unfold applyOscillationConstraints.
  - rewrite decide_True by exact Hempty. reflexivity.
  - unfold inner_corner_link, lateral_link, front, back, cell_at in *.
    destruct (decide (adjacent_cells cell V = [])) as [Hnil|_].
    { reflexivity. }
    assert (Hlink : (if decide (S = LEFT)
                     then defined (head (adjacent_cells cell V))
                     else defined (last (adjacent_cells cell V))) = Ok l_v).
    { destruct (decide (S = LEFT)); rewrite Hv; reflexivity. }
    rewrite Hlink. simpl. rewrite Hnv. simpl.
    assert (Hne : adjacent_cells n_v S ≠ []).
    { intros Hnil. rewrite Hnil in Hvs. destruct (decide (V = UP)); discriminate. }
    rewrite bool_decide_eq_true_2 by exact Hne. simpl.
    assert (Hlink' : (if decide (V = UP)
                      then defined (head (adjacent_cells n_v S))
                      else defined (last (adjacent_cells n_v S))) = Ok l_vs).
    { destruct (decide (V = UP)); rewrite Hvs; reflexivity. }
    rewrite Hlink'. simpl. rewrite Hnvs. simpl.
    rewrite decide_True by exact Hdepth. reflexivity.
Qed.

Lemma applyOscillationConstraints_no_constraint_witness :
  applyOscillationConstraints coarse_under_two_fine (mkNetwork ∅ ∅)
    (mkCell (prism (segment 0 0 0 1000) (segment 500 800 500 200) 1000 1500) 1
            (links [] [2%nat] [0%nat] []))
    RIGHT UP [mkPoint3 500 800 1000; mkPoint3 500 200 1500]
  = Ok [mkPoint3 500 800 1000; mkPoint3 500 200 1500]
  ∧ applyOscillationConstraints coarse_under_two_fine (mkNetwork ∅ ∅)
      (mkCell (prism (segment 0 0 0 1000) (segment 500 800 500 200) 1000 1500) 1
              (links [] [2%nat] [0%nat] []))
      RIGHT DOWN [mkPoint3 500 800 1000; mkPoint3 500 200 1500]
    = Ok [mkPoint3 500 800 1000; mkPoint3 500 200 1500].
Proof.
  split; apply applyOscillationConstraints_no_constraint.
  - left. reflexivity.
  - right.
    exists (mkLink 0), (mkLink 4),
      (mkCell (prism (segment 0 0 0 1000) (segment 1000 0 1000 1000) 0 1000) 0
              (links [3%nat] [4%nat] [] [1%nat; 2%nat])),
      (mkCell (prism (segment 1000 0 1000 1000) (segment 2000 0 2000 1000)
                     0 1000) 0
              (links [0%nat] [] [] [5%nat])).
    repeat split; try reflexivity. simpl. lia.
Defined.

(** ** Ends of polylines *)


(** ** Loops *)

Section Loops.
Context {S A : Type}.
Variable body : S -> A -> result S.

Lemma for_each_app (l1 l2 : list A) (s : S) :
  for_each body (l1 ++ l2) s = for_each body l1 s ≫= for_each body l2.
Proof.
  revert s. induction l1 as [|a l1 IH]; intros s; simpl; [reflexivity|].
  destruct (body s a) as [s'|f]; simpl; [apply IH|reflexivity].
Qed.

Lemma for_each_concat (ls : list (list A)) (s : S) :
  for_each (fun s0 l => for_each body l s0) ls s = for_each body (concat ls) s.
Proof.
  revert s. induction ls as [|l ls IH]; intros s; simpl; [reflexivity|].
  rewrite for_each_app.
  destruct (for_each body l s) as [s'|f]; simpl; [apply IH|reflexivity].
Qed.

(** An invariant that follows the elements already handled. *)
Lemma for_each_invariant (I : list A -> S -> Prop) (l : list A) :
  (∀ (done : list A) (a : A) (s s' : S),
     I done s → body s a = Ok s' → I (done ++ [a]) s') →
  ∀ (done : list A) (s s' : S),
    I done s → for_each body l s = Ok s' → I (done ++ l) s'.
Proof.
  intros Hstep. induction l as [|a l IH]; intros done s s' HI Hrun; simpl in Hrun.
  - injection Hrun as <-. by rewrite app_nil_r.
  - apply bind_Ok in Hrun as (s1 & Hbody & Hrest).
    rewrite (cons_middle a done l), (assoc_L (++)).
    apply (IH _ s1); [|exact Hrest]. by apply (Hstep done a s).
Qed.

(** An invariant of the state alone. *)
Lemma for_each_preserves (I : S -> Prop) (l : list A) :
  (∀ (a : A) (s s' : S), I s → body s a = Ok s' → I s') →
  ∀ s s' : S, I s → for_each body l s = Ok s' → I s'.
Proof.
  intros Hstep s s' HI Hrun.
  apply (for_each_invariant (fun _ => I) l (fun d a => Hstep a) [] s s' HI Hrun).
Qed.
End Loops.

(** ** The first pass stores the sides a cell owns *)

Lemma lookup_emplace (k c : nat) (v : list Point3) (es : gmap nat (list Point3)) :
  is_Some (emplace k v es !! c) ↔ c = k ∨ is_Some (es !! c).
Proof.
  unfold emplace. destruct (es !! k) as [w|] eqn:Hk.
  - split; [by right|]. intros [->|H]; [by exists w|done].
  - rewrite lookup_insert. destruct (decide (k = c)) as [->|Hne].
    + split; [by left|]. intros _. by eexists.
    + split; [by right|]. intros [->|H]; done.
Qed.

Lemma edges_set_edges (net : Cross3DPrismEdgeNetwork) (m m' : EdgeMap)
    (es : gmap nat (list Point3)) :
  edges (set_edges net m es) m' = if decide (m = m') then es else edges net m'.
Proof. destruct m, m'; reflexivity. Qed.

Lemma adjustEdgeEnd_length (P P' : list Point3) (V : Direction) (d : Point3) :
  adjustEdgeEnd P V d = Ok P' → (length P ≤ length P')%nat.
Proof.
  unfold adjustEdgeEnd. intros H. run_inv H.
  destruct (decide (v = d)); [injection H as <-; lia|].
  run_inv H.
  assert (Hset : length (set_end V d P) = length P).
  { unfold set_end. destruct (decide (V = UP)); apply length_insert. }
  destruct (decide (_ ∧ _)); injection H as <-; [|lia].
  unfold insert_at. rewrite length_app. simpl. rewrite length_take, length_drop. lia.
Qed.

Lemma applyOscillationConstraints_length (s : Cross3D)
    (net : Cross3DPrismEdgeNetwork) (cell : Cell) (S V : Direction)
    (P P' : list Point3) :
  applyOscillationConstraints s net cell S V P = Ok P' →
  (length P ≤ length P')%nat.
Proof.
  unfold applyOscillationConstraints. intros H.
  destruct (decide (adjacent_cells cell V = [])); [injection H as <-; lia|].
  run_inv H.
  destruct (decide (depth cell >= _)); [injection H as <-; lia|].
  run_inv H. by apply adjustEdgeEnd_length in H.
Qed.

Lemma addCellEdge_edges (s : Cross3D) (net net' : Cross3DPrismEdgeNetwork)
    (c : nat) (cell : Cell) (m : EdgeMap) (S : Direction) :
  addCellEdge s net c cell m S = Ok net' →
  ∃ P : list Point3,
    (2 ≤ length P)%nat ∧ net' = set_edges net m (emplace c P (edges net m)).
Proof.
  unfold addCellEdge. intros H. run_inv H. injection H as <-.
  exists v0. split; [|reflexivity].
  apply applyOscillationConstraints_length in Hv, Hv0. simpl in Hv. lia.
Qed.

Lemma addCellEdges_built (s : Cross3D) (done : list nat) (c : nat)
    (net net' : Cross3DPrismEdgeNetwork) :
  built s done net → addCellEdges s net c = Ok net' → built s (done ++ [c]) net'.
Proof.
  intros Hinv H. unfold addCellEdges in H. run_inv H.
  apply defined_Ok in Hv. rename v into cell, v0 into dl, v2 into dr.
  assert (Hl : ∀ m k, is_Some (edges v1 m !! k)
                      ↔ (k = c ∧ m = LeftEdges ∧ depth cell > dl)
                        ∨ is_Some (edges net m !! k)).
  { intros m k. destruct (decide (depth cell > dl)) as [Hd|Hd].
    - apply addCellEdge_edges in Hv1 as (P & _ & ->).
      rewrite edges_set_edges. destruct (decide (LeftEdges = m)) as [<-|Hm].
      + rewrite lookup_emplace. intuition congruence.
      + intuition congruence.
    - injection Hv1 as <-. intuition congruence. }
  assert (Hr : ∀ m k, is_Some (edges net' m !! k)
                      ↔ (k = c ∧ m = RightEdges ∧ depth cell >= dr)
                        ∨ is_Some (edges v1 m !! k)).
  { intros m k. destruct (decide (depth cell >= dr)) as [Hd|Hd].
    - apply addCellEdge_edges in H as (P & _ & ->).
      rewrite edges_set_edges. destruct (decide (RightEdges = m)) as [<-|Hm].
      + rewrite lookup_emplace. intuition congruence.
      + intuition congruence.
    - injection H as <-. intuition congruence. }
  intros m k. rewrite Hr, Hl, (Hinv m k), elem_of_app, list_elem_of_singleton.
  split.
  - intros [(-> & -> & Hd) | [(-> & -> & Hd) | (Hin & cell' & Hc & Ho)]].
    + split; [by right|]. exists cell. split; [done|]. by exists dr.
    + split; [by right|]. exists cell. split; [done|]. by exists dl.
    + split; [by left|]. by exists cell'.
  - intros ([Hin | ->] & cell' & Hc & Ho).
    + right. right. split; [done|]. by exists cell'.
    + assert (cell' = cell) as -> by congruence.
      destruct m; destruct Ho as (d & Hd & Hgt).
      * right. left. repeat split; try done. congruence.
      * left. repeat split; try done. congruence.
Qed.

Lemma build_edges_built (s : Cross3D) (net : Cross3DPrismEdgeNetwork) :
  build_edges s (mkNetwork ∅ ∅) = Ok net →
  built s (concat (reverse (getDepthOrdered s))) net.
Proof.
  unfold build_edges. rewrite for_each_concat. intros H.
  apply (for_each_invariant (addCellEdges s) (built s) _
           (addCellEdges_built s) [] (mkNetwork ∅ ∅) net); [|exact H].
  intros m c. split.
  - destruct m; simpl; rewrite lookup_empty; intros [? ?]; discriminate.
  - intros [Hin _]. by apply not_elem_of_nil in Hin.
Qed.

Lemma addCellEdges_probed (s : Cross3D) (done : list nat) (c : nat)
    (net net' : Cross3DPrismEdgeNetwork) :
  probed s done → addCellEdges s net c = Ok net' → probed s (done ++ [c]).
Proof.
  intros Hinv H k Hk. apply elem_of_app in Hk as [Hk | Hk]; [by apply Hinv|].
  apply list_elem_of_singleton in Hk as ->.
  unfold addCellEdges in H. run_inv H. apply defined_Ok in Hv.
  by exists v, v0, v2.
Qed.

Lemma build_edges_probed (s : Cross3D) (net net' : Cross3DPrismEdgeNetwork) :
  build_edges s net = Ok net' →
  probed s (concat (reverse (getDepthOrdered s))).
Proof.
  unfold build_edges. rewrite for_each_concat. intros H.
  apply (for_each_invariant (addCellEdges s) (fun done _ => probed s done) _
           (fun done a n n' => addCellEdges_probed s done a n n') [] net net');
    [|exact H].
  intros c Hc. by apply not_elem_of_nil in Hc.
Qed.

Lemma visited_processed (s : Cross3D) (c : nat) :
  c ∈ concat (reverse (getDepthOrdered s)) ↔ visited s c.
Proof.
  unfold visited. rewrite list_elem_of_In, in_concat. split.
  - intros (l & Hl & Hc). exists l.
    apply list_elem_of_In in Hl. apply list_elem_of_In in Hc.
    by rewrite elem_of_reverse in Hl.
  - intros (l & Hl & Hc). exists l.
    split; apply list_elem_of_In; [by rewrite elem_of_reverse|done].
Qed.

(** ** The second pass moves ends of stored edges only *)

Lemma preventZdiscontinuityProblem_changes (s : Cross3D)
    (intersection : LineSegment -> LineSegment -> Point)
    (net net' : Cross3DPrismEdgeNetwork) (c : nat) (V : Direction) :
  preventZdiscontinuityProblem s intersection net c V = Ok net' →
  net' = net
  ∨ ∃ (k : nat) (trouble adjusted : list Point3) (d : Point3),
      cell_to_right_edge_locations net !! k = Some trouble
      ∧ adjustEdgeEnd trouble (opposite V) d = Ok adjusted
      ∧ net' = mkNetwork (cell_to_left_edge_locations net)
                 (<[k := adjusted]> (cell_to_right_edge_locations net)).
Proof.
  unfold preventZdiscontinuityProblem. intros H. run_inv H.
  destruct (decide (_ < 2)%nat); [injection H as <-; by left|].
  run_inv H. injection H as <-. right.
  match goal with
  | Hf : find_asserted _ _ = Ok _ |- _ => apply find_asserted_Ok in Hf
  end.
  eauto 10.
Qed.

Lemma preventZdiscontinuityProblem_same_owners (s : Cross3D)
    (intersection : LineSegment -> LineSegment -> Point)
    (net net' : Cross3DPrismEdgeNetwork) (c : nat) (V : Direction) :
  preventZdiscontinuityProblem s intersection net c V = Ok net' →
  same_owners net net'.
Proof.
  intros H m k.
  apply preventZdiscontinuityProblem_changes in H
    as [-> | (k' & tr & adj & d & Htr & _ & ->)]; [done|].
  destruct m; simpl; [done|].
  rewrite lookup_insert. destruct (decide (k' = k)) as [->|?]; [|done].
  rewrite Htr. split; intros _; by eexists.
Qed.

Lemma preventZdiscontinuityProblem_all_long (s : Cross3D)
    (intersection : LineSegment -> LineSegment -> Point)
    (net net' : Cross3DPrismEdgeNetwork) (c : nat) (V : Direction) :
  all_long net →
  preventZdiscontinuityProblem s intersection net c V = Ok net' →
  all_long net'.
Proof.
  intros Hlong H.
  apply preventZdiscontinuityProblem_changes in H
    as [-> | (k' & tr & adj & d & Htr & Hadj & ->)]; [done|].
  intros m k P. destruct m; simpl; [apply (Hlong LeftEdges)|].
  rewrite lookup_insert. destruct (decide (k' = k)) as [->|?].
  - intros HP. injection HP as <-.
    apply adjustEdgeEnd_length in Hadj.
    specialize (Hlong RightEdges k tr Htr). lia.
  - apply (Hlong RightEdges).
Qed.

Lemma resolve_discontinuities_same_owners (s : Cross3D)
    (intersection : LineSegment -> LineSegment -> Point)
    (net net' : Cross3DPrismEdgeNetwork) :
  resolve_discontinuities s intersection net = Ok net' → same_owners net net'.
Proof.
  unfold resolve_discontinuities. rewrite for_each_concat.
  apply (for_each_preserves (resolve_cell s intersection) (same_owners net)).
  - intros c n n' Hn H. unfold resolve_cell in H. run_inv H.
    apply preventZdiscontinuityProblem_same_owners in Hv, H.
    intros m k. by rewrite (H m k), (Hv m k).
  - by intros m k.
Qed.

Lemma resolve_discontinuities_all_long (s : Cross3D)
    (intersection : LineSegment -> LineSegment -> Point)
    (net net' : Cross3DPrismEdgeNetwork) :
  all_long net →
  resolve_discontinuities s intersection net = Ok net' → all_long net'.
Proof.
  unfold resolve_discontinuities. rewrite for_each_concat.
  apply (for_each_preserves (resolve_cell s intersection) all_long).
  intros c n n' Hn H. unfold resolve_cell in H. run_inv H.
  eapply preventZdiscontinuityProblem_all_long; [|exact H].
  eapply preventZdiscontinuityProblem_all_long; [exact Hn|exact Hv].
Qed.

Lemma construct_passes (s : Cross3D)
    (intersection : LineSegment -> LineSegment -> Point)
    (angle_deg_gt_35 : Z -> Z -> bool) (DEBUG : bool)
    (net : Cross3DPrismEdgeNetwork) :
  construct s intersection angle_deg_gt_35 DEBUG = Ok net →
  ∃ net1 : Cross3DPrismEdgeNetwork,
    build_edges s (mkNetwork ∅ ∅) = Ok net1
    ∧ resolve_discontinuities s intersection net1 = Ok net
    ∧ (DEBUG = true → debugCheckInclinations angle_deg_gt_35 net = Ok tt).
Proof.
  unfold construct. intros H. run_inv H. exists v. destruct DEBUG.
  - run_inv H. injection H as <-. destruct v1. by repeat split.
  - injection H as <-. by repeat split.
Qed.

(** ** Ownership (C1, C10) *)

Lemma construct_owners (s : Cross3D)
    (intersection : LineSegment -> LineSegment -> Point)
    (angle_deg_gt_35 : Z -> Z -> bool) (DEBUG : bool)
    (net : Cross3DPrismEdgeNetwork) (m : EdgeMap) (c : nat) :
  construct s intersection angle_deg_gt_35 DEBUG = Ok net →
  is_Some (edges net m !! c)
  ↔ visited s c ∧ ∃ cell : Cell, cell_data s !! c = Some cell ∧ owns s cell m.
Proof.
  intros H. apply construct_passes in H as (net1 & Hbuild & Hres & _).
  apply resolve_discontinuities_same_owners in Hres.
  apply build_edges_built in Hbuild.
  by rewrite (Hres m c), (Hbuild m c), visited_processed.
Qed.

(** The depth probe reports the depth of the lateral neighbour. *)
Lemma getNeighborDepth_neighbour (s : Cross3D) (cell : Cell) (S : Direction)
    (d : Z) :
  adjacent_cells cell S ≠ [] →
  getNeighborDepth s cell S = Ok d →
  ∃ neighbour : Cell,
    lateral_neighbour s cell S = Some neighbour ∧ d = depth neighbour.
Proof.
  unfold getNeighborDepth, lateral_neighbour, cell_at. intros Hne H.
  destruct (adjacent_cells cell S) as [|l ls]; [done|]. simpl in *.
  destruct (cell_data s !! to_index l) as [n|]; [|discriminate].
  simpl in H. injection H as <-. by exists n.
Qed.

(** C1: once the construction has returned, every cell it visited and that
    has a LEFT neighbour has an entry in the left-edge map iff its depth is
    greater than the depth of that neighbour, and every visited cell that has
    a RIGHT neighbour has an entry in the right-edge map iff its depth is at
    least the depth of that neighbour (the neighbour being the cell at the
    front of the side list); of two lateral neighbours of equal depth only
    the left one stores the shared edge, in the right-edge map.  A cell that
    is not visited has no entry at all. *)
Theorem ownership_rule (s : Cross3D)
    (intersection : LineSegment -> LineSegment -> Point)
    (angle_deg_gt_35 : Z -> Z -> bool) (DEBUG : bool)
    (net : Cross3DPrismEdgeNetwork) :
  construct s intersection angle_deg_gt_35 DEBUG = Ok net →
  (∀ c : nat, visited s c →
     ∃ cell : Cell,
       cell_data s !! c = Some cell
       ∧ (adjacent_cells cell LEFT ≠ [] →
          ∃ left_neighbour : Cell,
            lateral_neighbour s cell LEFT = Some left_neighbour
            ∧ (is_Some (cell_to_left_edge_locations net !! c)
               ↔ depth cell > depth left_neighbour))
       ∧ (adjacent_cells cell RIGHT ≠ [] →
          ∃ right_neighbour : Cell,
            lateral_neighbour s cell RIGHT = Some right_neighbour
            ∧ (is_Some (cell_to_right_edge_locations net !! c)
               ↔ depth cell >= depth right_neighbour)))
  ∧ (∀ (a b : nat) (cell_a cell_b : Cell),
       visited s a → visited s b →
       cell_data s !! a = Some cell_a → cell_data s !! b = Some cell_b →
       head (adjacent_cells cell_a RIGHT) = Some (mkLink b) →
       head (adjacent_cells cell_b LEFT) = Some (mkLink a) →
       depth cell_a = depth cell_b →
       is_Some (cell_to_right_edge_locations net !! a)
       ∧ cell_to_left_edge_locations net !! b = None)
  ∧ (∀ c : nat, ¬ visited s c →
       cell_to_left_edge_locations net !! c = None
       ∧ cell_to_right_edge_locations net !! c = None).
Proof.
  intros H.
  assert (Hown := fun m c => construct_owners s intersection angle_deg_gt_35
                               DEBUG net m c H).
  assert (Hout : ∀ c : nat, ¬ visited s c →
            cell_to_left_edge_locations net !! c = None
            ∧ cell_to_right_edge_locations net !! c = None).
  { intros c Hc. split.
    - destruct (cell_to_left_edge_locations net !! c) eqn:E; [|done].
      exfalso. apply Hc. apply (Hown LeftEdges c). by eexists.
    - destruct (cell_to_right_edge_locations net !! c) eqn:E; [|done].
      exfalso. apply Hc. apply (Hown RightEdges c). by eexists. }
  apply construct_passes in H as (net1 & Hbuild & _ & _).
  apply build_edges_probed in Hbuild.
  assert (Hiff : ∀ c : nat, visited s c →
     ∃ cell : Cell,
       cell_data s !! c = Some cell
       ∧ (adjacent_cells cell LEFT ≠ [] →
          ∃ left_neighbour : Cell,
            lateral_neighbour s cell LEFT = Some left_neighbour
            ∧ (is_Some (cell_to_left_edge_locations net !! c)
               ↔ depth cell > depth left_neighbour))
       ∧ (adjacent_cells cell RIGHT ≠ [] →
          ∃ right_neighbour : Cell,
            lateral_neighbour s cell RIGHT = Some right_neighbour
            ∧ (is_Some (cell_to_right_edge_locations net !! c)
               ↔ depth cell >= depth right_neighbour))).
  { intros c Hc.
    destruct (Hbuild c) as (cell & dl & dr & Hcell & Hl & Hr);
      [by apply visited_processed|].
    exists cell. split; [done|]. split.
    - intros Hne.
      destruct (getNeighborDepth_neighbour s cell LEFT dl Hne Hl)
        as (n & Hn & ->).
      exists n. split; [done|]. split.
      + intros Hs.
        apply (Hown LeftEdges) in Hs as (_ & cell' & Hc' & d & Hd & Hgt).
        assert (cell' = cell) as -> by congruence.
        assert (d = depth n) as -> by congruence. done.
      + intros Hgt. apply (Hown LeftEdges). split; [done|].
        exists cell. split; [done|]. by exists (depth n).
    - intros Hne.
      destruct (getNeighborDepth_neighbour s cell RIGHT dr Hne Hr)
        as (n & Hn & ->).
      exists n. split; [done|]. split.
      + intros Hs.
        apply (Hown RightEdges) in Hs as (_ & cell' & Hc' & d & Hd & Hgt).
        assert (cell' = cell) as -> by congruence.
        assert (d = depth n) as -> by congruence. done.
      + intros Hgt. apply (Hown RightEdges). split; [done|].
        exists cell. split; [done|]. by exists (depth n). }
  split; [exact Hiff|]. split; [|exact Hout].
  intros a b cell_a cell_b Ha Hb Hca Hcb Hab Hba Hdepth.
  destruct (Hiff a Ha) as (ca & Hca' & _ & Hright).
  destruct (Hiff b Hb) as (cb & Hcb' & Hleft & _).
  assert (ca = cell_a) as -> by congruence.
  assert (cb = cell_b) as -> by congruence.
  destruct Hright as (nr & Hnr & Hright).
  { intros Hnil. rewrite Hnil in Hab. discriminate. }
  destruct Hleft as (nl & Hnl & Hleft).
  { intros Hnil. rewrite Hnil in Hba. discriminate. }
  unfold lateral_neighbour in Hnr, Hnl. rewrite Hab in Hnr. rewrite Hba in Hnl.
  simpl in Hnr, Hnl.
  assert (nr = cell_b) as -> by congruence.
  assert (nl = cell_a) as -> by congruence.
  split.
  - apply Hright. lia.
  - destruct (cell_to_left_edge_locations net !! b) eqn:E; [|done].
    assert (depth cell_b > depth cell_a); [|lia].
    apply Hleft. by eexists.
Qed.

Lemma ownership_rule_witness :
  (∃ net : Cross3DPrismEdgeNetwork,
     construct fine_beside_coarse no_intersection no_angle_check false
     = Ok net
     ∧ (is_Some (cell_to_left_edge_locations net !! 1%nat) ↔ 1 > 0)
     ∧ (is_Some (cell_to_right_edge_locations net !! 0%nat) ↔ 0 >= 1))
  ∧ (∃ net : Cross3DPrismEdgeNetwork,
       construct coarse_under_two_fine axis_intersection no_angle_check false
       = Ok net
       ∧ is_Some (cell_to_right_edge_locations net !! 1%nat)
       ∧ cell_to_left_edge_locations net !! 2%nat = None).
Proof.
  split.
  - destruct (construct fine_beside_coarse no_intersection no_angle_check
                false) as [net|f] eqn:E; [|vm_compute in E; discriminate].
    exists net. split; [reflexivity|].
    destruct (ownership_rule _ _ _ _ _ E) as (Hiff & _ & _).
    split.
    + destruct (Hiff 1%nat) as (cell & Hcell & Hleft & _).
      { exists [1%nat].
        split; apply list_elem_of_lookup; [by exists 1%nat | by exists 0%nat]. }
      simpl in Hcell. injection Hcell as <-.
      destruct Hleft as (n & Hn & Hl); [discriminate|].
      simpl in Hn. injection Hn as <-. exact Hl.
    + destruct (Hiff 0%nat) as (cell & Hcell & _ & Hright).
      { exists [0%nat].
        split; apply list_elem_of_lookup; by exists 0%nat. }
      simpl in Hcell. injection Hcell as <-.
      destruct Hright as (n & Hn & Hr); [discriminate|].
      simpl in Hn. injection Hn as <-. exact Hr.
  - destruct (construct coarse_under_two_fine axis_intersection no_angle_check
                false) as [net|f] eqn:E; [|vm_compute in E; discriminate].
    exists net. split; [reflexivity|].
    destruct (ownership_rule _ _ _ _ _ E) as (_ & Htie & _).
    apply (Htie 1%nat 2%nat
             (mkCell (prism (segment 0 0 0 1000) (segment 500 800 500 200)
                            1000 1500) 1
                     (links [] [2%nat] [0%nat] []))
             (mkCell (prism (segment 500 800 500 200)
                            (segment 1000 1000 1000 500) 1000 1500) 1
                     (links [1%nat] [5%nat] [0%nat] []))); try done.
    + exists [1%nat; 2%nat; 5%nat].
      split; apply list_elem_of_lookup; [by exists 1%nat | by exists 0%nat].
    + exists [1%nat; 2%nat; 5%nat].
      split; apply list_elem_of_lookup; by exists 1%nat.
Defined.

(** C10: a cell whose adjacent list on a lateral side is empty is meant
    never to store an edge for that side, [getNeighborDepth] reporting
    [CHAR_MAX] for it.  The code misses the case of a cell of depth
    [CHAR_MAX] without a RIGHT neighbour: it passes the test
    [depth >= CHAR_MAX] and stores a right edge. *)
Lemma boundary_cell_of_greatest_depth_stores_right_edge :
  ∃ (net : Cross3DPrismEdgeNetwork) (cell : Cell),
    construct deepest_cell_alone no_intersection no_angle_check false = Ok net
    ∧ cell_data deepest_cell_alone !! 0%nat = Some cell
    ∧ adjacent_cells cell RIGHT = []
    ∧ depth cell = CHAR_MAX
    ∧ cell_to_right_edge_locations net !! 0%nat
      = Some [mkPoint3 10 0 0; mkPoint3 10 10 10].
Proof.
  destruct (construct deepest_cell_alone no_intersection no_angle_check false)
    as [net|f] eqn:E; [|vm_compute in E; discriminate].
  exists net. eexists. split; [reflexivity|].
  split; [reflexivity|].
  vm_compute in E. injection E as <-.
  repeat split.
Qed.

(** Below [CHAR_MAX] a cell whose adjacent list on a lateral side S is
    empty stores no edge for side S (for the LEFT side, up to [CHAR_MAX]). *)
Lemma boundary_cell_stores_no_edge (s : Cross3D)
    (intersection : LineSegment -> LineSegment -> Point)
    (angle_deg_gt_35 : Z -> Z -> bool) (DEBUG : bool)
    (net : Cross3DPrismEdgeNetwork) (c : nat) (cell : Cell) (S : Direction) :
  construct s intersection angle_deg_gt_35 DEBUG = Ok net →
  cell_data s !! c = Some cell →
  S = LEFT ∨ S = RIGHT →
  adjacent_cells cell S = [] →
  depth cell ≤ CHAR_MAX →
  (S = RIGHT → depth cell < CHAR_MAX) →
  edges net (map_of_side S) !! c = None.
Proof.
  intros H Hcell HS Hadj Hmax Hright.
  destruct (edges net (map_of_side S) !! c) as [P|] eqn:E; [|done].
  assert (Hs : is_Some (edges net (map_of_side S) !! c)) by by eexists.
  apply (construct_owners _ _ _ _ _ _ _ H) in Hs as (_ & cell' & Hc' & Ho).
  assert (cell' = cell) as -> by congruence.
  destruct HS as [-> | ->]; unfold map_of_side in Ho; simpl in Ho;
    destruct Ho as (d & Hd & Hgt);
    unfold getNeighborDepth in Hd; rewrite Hadj in Hd; injection Hd as <-.
  - lia.
  - specialize (Hright eq_refl). lia.
Qed.

Example boundary_cells_of_coarse_under_two_fine :
  ∃ net : Cross3DPrismEdgeNetwork,
    construct coarse_under_two_fine axis_intersection no_angle_check false
    = Ok net
    ∧ cell_to_left_edge_locations net !! 3%nat = None
    ∧ cell_to_right_edge_locations net !! 4%nat = None.
Proof.
  destruct (construct coarse_under_two_fine axis_intersection no_angle_check
              false) as [net|f] eqn:E; [|vm_compute in E; discriminate].
  exists net. split; [reflexivity|]. split.
  - apply (boundary_cell_stores_no_edge _ _ _ _ _ 3%nat
             (mkCell (prism (segment (-1000) 0 (-1000) 1000)
                            (segment 0 0 0 1000) 0 1000) 0
                     (links [] [0%nat] [] []))
             LEFT E eq_refl (or_introl eq_refl) eq_refl).
    + unfold CHAR_MAX. simpl. lia.
    + discriminate.
  - apply (boundary_cell_stores_no_edge _ _ _ _ _ 4%nat
             (mkCell (prism (segment 1000 0 1000 1000)
                            (segment 2000 0 2000 1000) 0 1000) 0
                     (links [0%nat] [] [] [5%nat]))
             RIGHT E eq_refl (or_intror eq_refl) eq_refl).
    + unfold CHAR_MAX. simpl. lia.
    + intros _. unfold CHAR_MAX. simpl. lia.
Qed.

(** ** The reference edge of the oscillation constraint (C9) *)



Lemma elem_of_concat (ls : list (list nat)) (c : nat) :
  c ∈ concat ls ↔ ∃ l : list nat, l ∈ ls ∧ c ∈ l.
Proof.
  rewrite list_elem_of_In, in_concat.
  split; intros (l & Hl & Hc); exists l; split; by apply list_elem_of_In.
Qed.








(** Outside such structures the lookup can fail.  In
    [mixed_right_neighbours] the RIGHT list of cell 1 mixes depths; the
    routine for cell 0, side RIGHT, direction DOWN selects the right edge of
    cell 1, which is deeper than cell 0 and was handled before; but cell 1
    stored no right edge, because the front cell of its RIGHT list is deeper
    than it is.  The assertion stops the construction. *)
Lemma deeper_reference_without_edge :
  ∃ (net : Cross3DPrismEdgeNetwork) (cell rcell : Cell),
    layered mixed_right_neighbours
    ∧ for_each (addCellEdges mixed_right_neighbours) [2%nat; 1%nat; 3%nat]
        (mkNetwork ∅ ∅) = Ok net
    ∧ cell_data mixed_right_neighbours !! 0%nat = Some cell
    ∧ oscillation_reference mixed_right_neighbours cell RIGHT DOWN
      = Some (RightEdges, 1%nat)
    ∧ cell_data mixed_right_neighbours !! 1%nat = Some rcell
    ∧ depth rcell > depth cell
    ∧ cell_to_right_edge_locations net !! 1%nat = None
    ∧ applyOscillationConstraints mixed_right_neighbours net cell RIGHT DOWN
        [mkPoint3 100 0 100; mkPoint3 100 100 200]
      = Fault AssertionFailed
    ∧ construct mixed_right_neighbours no_intersection no_angle_check false
      = Fault AssertionFailed.
Proof.
  destruct (for_each (addCellEdges mixed_right_neighbours)
              [2%nat; 1%nat; 3%nat] (mkNetwork ∅ ∅)) as [net|f] eqn:E;
    [|vm_compute in E; discriminate].
  exists net. do 2 eexists. split.
  { intros k layer c cell Hk Hc Hcell.
    destruct k as [|[|[|k]]]; simpl in Hk; try discriminate;
      injection Hk as <-;
      repeat (apply elem_of_cons in Hc as [-> | Hc]);
      try (by apply not_elem_of_nil in Hc);
      simpl in Hcell; injection Hcell as <-; reflexivity. }
  split; [reflexivity|].
  split; [reflexivity|].
  vm_compute in E. injection E as <-.
  repeat split; vm_compute; congruence.
Qed.

(** The RIGHT list of cell 1 of [mixed_right_neighbours] is not uniform in
    depth. *)
Example mixed_right_neighbours_not_uniform :
  ¬ uniform_sides mixed_right_neighbours.
Proof.
  intros H.
  assert (Hv : visited mixed_right_neighbours 1).
  { exists [1%nat; 3%nat].
    split; apply list_elem_of_lookup; [by exists 1%nat | by exists 0%nat]. }
  assert (Hd : 2 = 1); [|discriminate].
  apply (H 1%nat
           (mkCell (prism (segment 0 0 0 100) (segment 100 100 100 0) 0 100) 1
                   (links [] [2%nat; 3%nat] [] [0%nat]))
           RIGHT (mkLink 2) (mkLink 3)
           (mkCell (prism (segment 100 100 100 0) (segment 150 100 150 0)
                          0 50) 2
                   (links [1%nat] [] [] []))
           (mkCell (prism (segment 100 100 100 0) (segment 200 100 200 0)
                          50 100) 1
                   (links [1%nat] [] [] [])));
    try done.
  - by right.
  - apply list_elem_of_here.
  - apply list_elem_of_further, list_elem_of_here.
Qed.

(** ** Stored polylines *)

Lemma addCellEdges_all_long (s : Cross3D) (c : nat)
    (net net' : Cross3DPrismEdgeNetwork) :
  all_long net → addCellEdges s net c = Ok net' → all_long net'.
Proof.
  assert (Hstep : ∀ n n' cell m S,
            all_long n → addCellEdge s n c cell m S = Ok n' → all_long n').
  { intros n n' cell m S Hn H.
    apply addCellEdge_edges in H as (P & HP & ->).
    intros m' k Q. rewrite edges_set_edges.
    destruct (decide (m = m')) as [<-|?]; [|apply Hn].
    unfold emplace. destruct (edges n m !! c) eqn:E; [apply Hn|].
    rewrite lookup_insert. destruct (decide (c = k)) as [->|?]; [|apply Hn].
    intros HQ. injection HQ as <-. exact HP. }
  intros Hlong H. unfold addCellEdges in H. run_inv H.
  assert (Hv1' : all_long v1).
  { destruct (decide (depth v > v0)); [by eapply Hstep|].
    by injection Hv1 as <-. }
  destruct (decide (depth v >= v2)); [by eapply Hstep|].
  by injection H as <-.
Qed.

Lemma construct_all_long (s : Cross3D)
    (intersection : LineSegment -> LineSegment -> Point)
    (angle_deg_gt_35 : Z -> Z -> bool) (DEBUG : bool)
    (net : Cross3DPrismEdgeNetwork) :
  construct s intersection angle_deg_gt_35 DEBUG = Ok net → all_long net.
Proof.
  intros H. apply construct_passes in H as (net1 & Hbuild & Hres & _).
  apply (resolve_discontinuities_all_long s intersection net1); [|exact Hres].
  unfold build_edges in Hbuild. rewrite for_each_concat in Hbuild.
  apply (for_each_preserves (addCellEdges s) all_long
           (concat (reverse (getDepthOrdered s)))
           (addCellEdges_all_long s) (mkNetwork ∅ ∅)); [|exact Hbuild].
  intros m c P. destruct m; simpl; by rewrite lookup_empty.
Qed.

Lemma z_increasing_app (l1 l2 : list Point3) (p : Point3) :
  z_increasing (l1 ++ p :: l2) ↔ z_increasing (l1 ++ [p]) ∧ z_increasing (p :: l2).
Proof.
  induction l1 as [|q l1 IH]; simpl.
  - tauto.
  - destruct l1 as [|q' l1]; simpl in *; [tauto|].
    rewrite IH. tauto.
Qed.

(** When Adjust Edge End keeps a polyline strictly increasing in z: iff the
    destination is strictly beyond the neighbour [a] of the moved end in z
    and, when a bend is inserted, the z of the bend is strictly between the
    z of [a] and of the destination.  The code checks neither. *)
Lemma adjustEdgeEnd_z_increasing_up (pre P' : list Point3)
    (t a destination : Point3) :
  destination ≠ t →
  vSize (mkPoint (x a - x t) (y a - y t)) ≠ 0 →
  z_increasing (pre ++ [a; t]) →
  adjustEdgeEnd (pre ++ [a; t]) UP destination = Ok P' →
  z_increasing P'
  ↔ if decide (bend_is_kept (code_bend t a destination) a destination)
    then z a < z (code_bend t a destination) < z destination
    else z a < z destination.
Proof.
  intros Hd Hn Hinc Hrun.
  rewrite adjustEdgeEnd_up in Hrun by done. injection Hrun as <-.
  apply z_increasing_app in Hinc as [Hpre _].
  destruct (decide _); rewrite z_increasing_app; simpl; tauto.
Qed.

Lemma adjustEdgeEnd_z_increasing_down (rest P' : list Point3) (V : Direction)
    (t a destination : Point3) :
  V ≠ UP →
  destination ≠ t →
  vSize (mkPoint (x a - x t) (y a - y t)) ≠ 0 →
  z_increasing (t :: a :: rest) →
  adjustEdgeEnd (t :: a :: rest) V destination = Ok P' →
  z_increasing P'
  ↔ if decide (bend_is_kept (code_bend t a destination) a destination)
    then z destination < z (code_bend t a destination) < z a
    else z destination < z a.
Proof.
  intros HV Hd Hn Hinc Hrun.
  rewrite adjustEdgeEnd_down in Hrun by done. injection Hrun as <-.
  destruct Hinc as [_ Hrest].
  destruct (decide _); simpl in *; tauto.
Qed.

(** ** Inclination (C2, C8) *)


Lemma for_each_checks {A : Type} (check : A -> result unit) (l : list A) :
  for_each (fun (_ : unit) a => check a) l tt = Ok tt →
  ∀ a : A, a ∈ l → check a = Ok tt.
Proof.
  induction l as [|b l IH]; intros H a Ha.
  - by apply not_elem_of_nil in Ha.
  - simpl in H. apply bind_Ok in H as ([] & Hb & Hrest).
    apply elem_of_cons in Ha as [-> | Ha]; [exact Hb|by apply IH].
Qed.

Lemma check_from_pairs (angle_deg_gt_35 : Z -> Z -> bool) (rest : list Point3) :
  ∀ below : Point3,
    check_from angle_deg_gt_35 below rest = Ok tt →
    ∀ (i : nat) (p q : Point3),
      (below :: rest) !! i = Some p → (below :: rest) !! S i = Some q →
      passes_angle_check angle_deg_gt_35 p q.
Proof.
  induction rest as [|above rest IH]; intros below H i p q Hp Hq.
  - destruct i; discriminate.
  - simpl in H. apply bind_Ok in H as ([] & Ha & Hrest).
    apply assert_Ok in Ha. destruct i as [|i].
    + simpl in Hp, Hq. injection Hp as <-. injection Hq as <-. exact Ha.
    + apply (IH above Hrest i); [exact Hp|exact Hq].
Qed.

Lemma debugCheckInclination_pairs (angle_deg_gt_35 : Z -> Z -> bool)
    (edge : list Point3) :
  debugCheckInclination angle_deg_gt_35 edge = Ok tt →
  ∀ (i : nat) (p q : Point3),
    edge !! i = Some p → edge !! S i = Some q →
    passes_angle_check angle_deg_gt_35 p q.
Proof.
  unfold debugCheckInclination, front. intros H. run_inv H.
  destruct edge as [|below rest]; [discriminate|].
  simpl in Hv0. injection Hv0 as <-. simpl in H.
  by apply check_from_pairs.
Qed.

(** With DEBUG the constructor returns only if every consecutive pair of
    points of every stored polyline passes the angle test. *)
Lemma inclination_checked_with_DEBUG (s : Cross3D)
    (intersection : LineSegment -> LineSegment -> Point)
    (angle_deg_gt_35 : Z -> Z -> bool) (net : Cross3DPrismEdgeNetwork)
    (m : EdgeMap) (c : nat) (P : list Point3) (i : nat) (p q : Point3) :
  construct s intersection angle_deg_gt_35 true = Ok net →
  edges net m !! c = Some P →
  P !! i = Some p →
  P !! S i = Some q →
  passes_angle_check angle_deg_gt_35 p q.
Proof.
  intros H HP Hp Hq.
  apply construct_passes in H as (_ & _ & _ & Hcheck).
  specialize (Hcheck eq_refl). unfold debugCheckInclinations in Hcheck.
  apply bind_Ok in Hcheck as ([] & Hleft & Hright).
  apply (debugCheckInclination_pairs angle_deg_gt_35 P) with (i := i);
    [|exact Hp|exact Hq].
  destruct m; simpl in HP.
  - apply (for_each_checks
             (fun pair : nat * list Point3 =>
                debugCheckInclination angle_deg_gt_35 pair.2) _ Hleft (c, P)).
    by apply elem_of_map_to_list.
  - apply (for_each_checks
             (fun pair : nat * list Point3 =>
                debugCheckInclination angle_deg_gt_35 pair.2) _ Hright (c, P)).
    by apply elem_of_map_to_list.
Qed.

(** Right edges that meet at the boundary pass the check. *)
Example aligned_cells_pass_the_check :
  ∃ net : Cross3DPrismEdgeNetwork,
    construct aligned_cells no_intersection slope_above_seven_tenths true
    = Ok net
    ∧ passes_angle_check slope_above_seven_tenths
        (mkPoint3 0 0 0) (mkPoint3 50 0 100).
Proof.
  destruct (construct aligned_cells no_intersection slope_above_seven_tenths
              true) as [net|f] eqn:E; [|vm_compute in E; discriminate].
  exists net. split; [reflexivity|].
  apply (inclination_checked_with_DEBUG aligned_cells no_intersection
           slope_above_seven_tenths net RightEdges 0%nat
           [mkPoint3 0 0 0; mkPoint3 50 0 100] 0%nat _ _ E);
    [|reflexivity|reflexivity].
  vm_compute in E. injection E as <-. vm_compute. reflexivity.
Qed.

(** ** The code against its own inclination check (C2, C8) *)









(** * Further properties of the edge network *)

(** ** Adjust Edge End *)

Lemma last_two_inv (P : list Point3) (a t : Point3) :
  (2 ≤ length P)%nat →
  P !! (length P - 2)%nat = Some a → last P = Some t →
  ∃ pre : list Point3, P = pre ++ [a; t].
Proof.
  intros Hlen Ha Ht.
  destruct (decide (P = [])) as [->|Hne]; [simpl in Hlen; lia|].
  destruct (exists_last Hne) as (P1 & t' & ->).
  rewrite last_snoc in Ht. injection Ht as ->.
  rewrite length_app in Ha, Hlen. simpl in Ha, Hlen.
  destruct (decide (P1 = [])) as [->|Hne1]; [simpl in Hlen; lia|].
  destruct (exists_last Hne1) as (pre & a' & ->).
  exists pre. rewrite <- (assoc_L (++)). simpl.
  rewrite length_app in Ha. simpl in Ha.
  replace (length pre + 1 + 1 - 2)%nat with (length pre + 0)%nat in Ha by lia.
  rewrite <- (assoc_L (++)) in Ha. rewrite lookup_app_r in Ha by lia.
  replace (length pre + 0 - length pre)%nat with 0%nat in Ha by lia.
  simpl in Ha. by injection Ha as ->.
Qed.

(** The three ways in which [adjustEdgeEnd] returns. *)
Lemma adjustEdgeEnd_inv (P P' : list Point3) (V : Direction) (d : Point3) :
  adjustEdgeEnd P V d = Ok P' →
  (end_to_move V P = Some d ∧ P' = P)
  ∨ (V = UP ∧ ∃ (pre : list Point3) (a t : Point3),
       P = pre ++ [a; t] ∧ d ≠ t ∧ xy_length a t ≠ 0
       ∧ P' = if decide (bend_is_kept (code_bend t a d) a d)
              then pre ++ [a; code_bend t a d; d]
              else pre ++ [a; d])
  ∨ (V ≠ UP ∧ ∃ (rest : list Point3) (a t : Point3),
       P = t :: a :: rest ∧ d ≠ t ∧ xy_length a t ≠ 0
       ∧ P' = if decide (bend_is_kept (code_bend t a d) a d)
              then d :: code_bend t a d :: a :: rest
              else d :: a :: rest).
Proof.
  intros H. assert (Hrun := H). unfold adjustEdgeEnd in H.
  apply bind_Ok in H as (t & Ht & H).
  assert (Hend : end_to_move V P = Some t).
  { unfold end_to_move, back, front in *.
    destruct (decide (V = UP)); by apply defined_Ok. }
  destruct (decide (t = d)) as [->|Hne].
  { injection H as <-. by left. }
  right.
  apply bind_Ok in H as (a & Ha & H). apply defined_Ok in Ha.
  apply bind_Ok in H as (b & Hb & _).
  assert (Hn : xy_length a t ≠ 0).
  { unfold bending_point_of, Point3_div in Hb. simpl in Hb.
    intros Hz. unfold xy_length in Hz.
    change (vSize (toPoint (Point3_sub a t))) with
      (vSize (mkPoint (x a - x t) (y a - y t))) in Hb.
    rewrite Hz in Hb. simpl in Hb. discriminate. }
  unfold end_to_move in Hend.
  destruct (decide (V = UP)) as [->|HV].
  - left. split; [done|].
    destruct (decide (2 ≤ length P)%nat) as [Hlen|]; [|discriminate].
    destruct (last_two_inv P a t Hlen Ha Hend) as (pre & ->).
    exists pre, a, t. repeat split; try done; try congruence.
    rewrite adjustEdgeEnd_up in Hrun by (done || congruence).
    by injection Hrun as <-.
  - right. split; [done|].
    destruct P as [|t' [|a' rest]]; try discriminate.
    simpl in Hend, Ha. injection Hend as ->. injection Ha as ->.
    exists rest, a, t. repeat split; try done; try congruence.
    rewrite adjustEdgeEnd_down in Hrun by (done || congruence).
    by injection Hrun as <-.
Qed.

Lemma adjustEdgeEnd_end_moved (P P' : list Point3) (V : Direction)
    (d : Point3) :
  adjustEdgeEnd P V d = Ok P' → end_to_move V P' = Some d.
Proof.
  intros H.
  apply adjustEdgeEnd_inv in H
    as [[Hend ->] | [(-> & pre & a & t & -> & _ & _ & ->)
                    | (HV & rest & a & t & -> & _ & _ & ->)]].
  - done.
  - unfold end_to_move. simpl.
    destruct (decide (bend_is_kept _ _ _)).
    + change [a; code_bend t a d; d] with ([a; code_bend t a d] ++ [d]).
      by rewrite (assoc_L (++)), last_snoc.
    + change [a; d] with ([a] ++ [d]).
      by rewrite (assoc_L (++)), last_snoc.
  - unfold end_to_move.
    destruct (decide (V = UP)); [done|].
    by destruct (decide (bend_is_kept _ _ _)).
Qed.

(** X1: Whenever [adjustEdgeEnd] returns, the end it was asked to move is at
    the destination, the other end is where it was, and the polyline has
    grown by at most one point. *)
Theorem adjustEdgeEnd_ends (P P' : list Point3) (V : Direction) (d : Point3) :
  adjustEdgeEnd P V d = Ok P' →
  end_to_move V P' = Some d
  ∧ far_end V P' = far_end V P
  ∧ (length P ≤ length P' ≤ S (length P))%nat.
Proof.
  intros H.
  apply adjustEdgeEnd_inv in H
    as [[Hend ->] | [(-> & pre & a & t & -> & _ & _ & ->)
                    | (HV & rest & a & t & -> & _ & _ & ->)]].
  - repeat split; try done; lia.
  - unfold end_to_move, far_end. simpl.
    destruct (decide (bend_is_kept _ _ _)).
    + split; [|split].
      * change [a; code_bend t a d; d] with ([a; code_bend t a d] ++ [d]).
        by rewrite (assoc_L (++)), last_snoc.
      * by destruct pre.
      * rewrite !length_app. simpl. lia.
    + split; [|split].
      * change [a; d] with ([a] ++ [d]).
        by rewrite (assoc_L (++)), last_snoc.
      * by destruct pre.
      * rewrite !length_app. simpl. lia.
  - unfold end_to_move, far_end.
    destruct (decide (V = UP)); [done|].
    destruct (decide (bend_is_kept _ _ _)).
    + split; [done|]. split; [|simpl; lia].
      change (d :: code_bend t a d :: a :: rest)
        with ([d; code_bend t a d] ++ a :: rest).
      change (t :: a :: rest) with ([t] ++ a :: rest).
      by rewrite !last_app_cons.
    + split; [done|]. split; [|simpl; lia].
      change (d :: a :: rest) with ([d] ++ a :: rest).
      change (t :: a :: rest) with ([t] ++ a :: rest).
      by rewrite !last_app_cons.
Qed.

Lemma adjustEdgeEnd_ends_witness :
  end_to_move DOWN [mkPoint3 40 0 0; mkPoint3 20 0 20; mkPoint3 100 0 100]
  = Some (mkPoint3 40 0 0)
  ∧ far_end DOWN [mkPoint3 40 0 0; mkPoint3 20 0 20; mkPoint3 100 0 100]
    = far_end DOWN [mkPoint3 0 0 0; mkPoint3 100 0 100]
  ∧ (length [mkPoint3 0 0 0; mkPoint3 100 0 100]
     ≤ length [mkPoint3 40 0 0; mkPoint3 20 0 20; mkPoint3 100 0 100]
     ≤ S (length [mkPoint3 0 0 0; mkPoint3 100 0 100]))%nat.
Proof.
  exact (adjustEdgeEnd_ends [mkPoint3 0 0 0; mkPoint3 100 0 100]
           [mkPoint3 40 0 0; mkPoint3 20 0 20; mkPoint3 100 0 100]
           DOWN (mkPoint3 40 0 0) eq_refl).
Defined.

(** X2: Moving an end to where a first call has put it changes nothing. *)
Theorem adjustEdgeEnd_twice (P P' : list Point3) (V : Direction) (d : Point3) :
  adjustEdgeEnd P V d = Ok P' → adjustEdgeEnd P' V d = Ok P'.
Proof.
  intros H. apply adjustEdgeEnd_end_moved in H as Hend.
  unfold adjustEdgeEnd, end_to_move, back, front in *.
  destruct (decide (V = UP)); rewrite Hend; simpl;
    by rewrite decide_True.
Qed.

Lemma adjustEdgeEnd_twice_witness :
  adjustEdgeEnd [mkPoint3 40 0 0; mkPoint3 20 0 20; mkPoint3 100 0 100]
    DOWN (mkPoint3 40 0 0)
  = Ok [mkPoint3 40 0 0; mkPoint3 20 0 20; mkPoint3 100 0 100].
Proof.
  exact (adjustEdgeEnd_twice [mkPoint3 0 0 0; mkPoint3 100 0 100] _
           DOWN (mkPoint3 40 0 0) eq_refl).
Defined.

(** X3: [adjustEdgeEnd] returns exactly when the polyline has an end to move
    and, unless that end is the destination already, a neighbour of it at a
    2D distance other than 0; it never fails an assertion: what stops it
    otherwise is an access outside the polyline or a division by 0. *)
Theorem adjustEdgeEnd_returns (P : list Point3) (V : Direction) (d : Point3) :
  match adjustEdgeEnd P V d with
  | Ok _ => can_adjust P V d
  | Fault f => f = UndefinedBehaviour ∧ ¬ can_adjust P V d
  end.
Proof.
  unfold can_adjust, adjustEdgeEnd, end_to_move, adjacent_point, back, front.
  destruct (if decide (V = UP) then last P else head P) as [t|] eqn:Ht.
  2:{ assert (Hf : (if decide (V = UP) then defined (last P)
                    else defined (head P)) = Fault UndefinedBehaviour).
      { destruct (decide (V = UP)); by rewrite Ht. }
      rewrite Hf. simpl. split; [done|]. intros (t & Hsome & _). discriminate. }
  assert (Hok : (if decide (V = UP) then defined (last P)
                 else defined (head P)) = Ok t).
  { destruct (decide (V = UP)); by rewrite Ht. }
  rewrite Hok. simpl.
  destruct (decide (t = d)) as [->|Hne].
  { exists d. split; [done|]. by left. }
  destruct (if decide (V = UP)
            then if decide (2 ≤ length P)%nat
                 then P !! (length P - 2)%nat else None
            else P !! 1%nat) as [a|] eqn:Ha; simpl.
  2:{ split; [done|]. intros (t' & Hsome & [-> | (a & Hsome' & _)]);
        [congruence | discriminate]. }
  unfold bending_point_of, Point3_div. simpl.
  change (vSize (toPoint (Point3_sub a t))) with (xy_length a t).
  destruct (decide (xy_length a t = 0)) as [Hz|Hnz]; simpl.
  - split; [done|].
    intros (t' & Hsome & [-> | (a' & Hsome' & Hn)]); [congruence|].
    injection Hsome as <-. injection Hsome' as <-. contradiction.
  - destruct (decide (_ ∧ _)); exists t; (split; [done|]); right; by exists a.
Qed.

(** ** Edge Query *)

Lemma z_increasing_index (P : list Point3) (i j : nat) (p q : Point3) :
  z_increasing P → P !! i = Some p → P !! j = Some q → z p ≤ z q → (i ≤ j)%nat.
Proof.
  intros Hinc Hp Hq Hz.
  destruct (decide (i ≤ j)%nat) as [|Hgt]; [done|].
  assert (z q < z p); [|lia].
  apply (z_increasing_lookup P j i); auto. lia.
Qed.

(** The truncated interpolation stays between the two ends of the segment,
    and meets them at their z. *)
Lemma interpolation_between (a b r dz : Z) :
  0 < dz → 0 ≤ r ≤ dz →
  Z.min a b ≤ a + (b - a) * r ÷ dz ≤ Z.max a b.
Proof.
  intros Hdz Hr.
  destruct (Z_le_gt_dec a b) as [Hab|Hab].
  - assert (H0 : 0 ≤ (b - a) * r ÷ dz) by (apply Z.quot_pos; nia).
    assert (H1 : (b - a) * r ÷ dz ≤ (b - a) * dz ÷ dz)
      by (apply Z.quot_le_mono; nia).
    rewrite Z.quot_mul in H1 by lia. lia.
  - assert (H0 : (b - a) * r ÷ dz ≤ 0 ÷ dz) by (apply Z.quot_le_mono; nia).
    rewrite Z.quot_0_l in H0 by lia.
    assert (H1 : (b - a) * dz ÷ dz ≤ (b - a) * r ÷ dz)
      by (apply Z.quot_le_mono; nia).
    rewrite Z.quot_mul in H1 by lia. lia.
Qed.

(** X4: A query within the z range of the polyline never leaves the bounding box
    of the segment it interpolates. *)
Theorem getCellEdgeLocation_within_segment (s : Cross3D)
    (net : Cross3DPrismEdgeNetwork) (before_ptr after_ptr : nat)
    (before after : Cell) (P : list Point3) (first_pt last_pt : Point3)
    (zq : Z) (location : Point) :
  cell_data s !! before_ptr = Some before →
  cell_data s !! after_ptr = Some after →
  shared_edge net before_ptr after_ptr before after = Some P →
  POLY P →
  head P = Some first_pt →
  last P = Some last_pt →
  z first_pt ≤ zq ≤ z last_pt →
  getCellEdgeLocation s net before_ptr after_ptr zq = Ok location →
  ∃ (i : nat) (below above : Point3),
    P !! i = Some below ∧ P !! S i = Some above
    ∧ z below ≤ zq ≤ z above
    ∧ Z.min (x below) (x above) ≤ X location ≤ Z.max (x below) (x above)
    ∧ Z.min (y below) (y above) ≤ Y location ≤ Z.max (y below) (y above).
Proof.
  intros Hb Ha HP [Hlen Hmono] Hfirst Hlast [Hlo Hhi] Hrun.
  destruct (scan_edge_stops P zq last_pt Hlen Hlast Hhi)
    as (i & below & above & Hi & HSi & Hab & Hbel & Hscan).
  exists i, below, above.
  assert (Hlt : z below < z above).
  { apply (z_increasing_lookup P i (S i)); auto. }
  assert (Hbelow : z below ≤ zq).
  { destruct i as [|i]; [|lia]. destruct P; simpl in *; congruence. }
  rewrite (getCellEdgeLocation_run s net before_ptr after_ptr before after P)
    in Hrun by done.
  rewrite Hscan, interpolate_run in Hrun by lia.
  destruct (decide _); [discriminate|]. injection Hrun as <-.
  unfold interpolated. simpl.
  split; [done|]. split; [done|]. split; [lia|].
  split; apply interpolation_between; lia.
Qed.

(** X5: A query at the z of a stored point returns the x and y of that point:
    the edge passes through its stored points, its two ends among them.  The
    one exception is the assertion on the edge direction, which fails when
    the neighbour the scan pairs the point with (the point before it, or the
    second point for the first one) has the same x and y. *)
Theorem getCellEdgeLocation_at_stored_point (s : Cross3D)
    (net : Cross3DPrismEdgeNetwork) (before_ptr after_ptr : nat)
    (before after : Cell) (P : list Point3) (j : nat) (p q : Point3) :
  cell_data s !! before_ptr = Some before →
  cell_data s !! after_ptr = Some after →
  shared_edge net before_ptr after_ptr before after = Some P →
  POLY P →
  P !! j = Some p →
  P !! (if decide (j = 0%nat) then 1%nat else (j - 1)%nat) = Some q →
  getCellEdgeLocation s net before_ptr after_ptr (z p)
  = if decide (x p = x q ∧ y p = y q) then Fault AssertionFailed
    else Ok (toPoint p).
Proof.
  intros Hb Ha HP [Hlen Hmono] Hj Hq.
  destruct (last P) as [last_pt|] eqn:Hlast.
  2:{ apply last_None in Hlast. subst. simpl in Hlen. lia. }
  assert (Hhi : z p ≤ z last_pt).
  { rewrite last_lookup in Hlast. apply lookup_lt_Some in Hj as Hjlt.
    destruct (decide (j = pred (length P))) as [->|Hne].
    - assert (p = last_pt) by congruence. subst. lia.
    - assert (z p < z last_pt); [|lia].
      apply (z_increasing_lookup P j (pred (length P))); auto. lia. }
  destruct (scan_edge_stops P (z p) last_pt Hlen Hlast Hhi)
    as (i & below & above & Hi & HSi & Hab & Hbel & Hscan).
  assert (Hlt : z below < z above).
  { apply (z_increasing_lookup P i (S i)); auto. }
  rewrite (getCellEdgeLocation_run s net before_ptr after_ptr before after P)
    by done.
  rewrite Hscan, interpolate_run by lia.
  assert (Hji : (j ≤ S i)%nat)
    by (by apply (z_increasing_index P j (S i) p above)).
  unfold interpolated, toPoint.
  destruct (decide (j = S i)) as [->|Hne].
  - assert (p = above) as -> by congruence.
    destruct (decide (S i = 0%nat)) as [?|_]; [lia|].
    replace (S i - 1)%nat with i in Hq by lia.
    assert (q = below) as -> by congruence.
    destruct (decide (x above = x below ∧ y above = y below)); [done|].
    rewrite !Z.quot_mul by lia. do 2 f_equal; lia.
  - assert (i = 0%nat ∧ j = 0%nat) as [-> ->].
    { destruct (decide (i = 0%nat)) as [->|Hnz]; [lia|].
      specialize (Hbel Hnz). exfalso.
      destruct (decide (j = i)) as [->|Hji'].
      - assert (p = below) by congruence. subst. lia.
      - assert (z p < z below); [|lia].
        apply (z_increasing_lookup P j i); auto. lia. }
    assert (p = below) as -> by congruence.
    simpl in Hq. assert (q = above) as -> by congruence.
    replace (z below - z below) with 0 by lia.
    rewrite !Z.mul_0_r, !Z.quot_0_l by lia.
    destruct (decide (x above = x below ∧ y above = y below)) as [[? ?]|Hn].
    + by rewrite decide_True by (split; congruence).
    + rewrite decide_False by (intros [? ?]; apply Hn; split; congruence).
      do 2 f_equal; lia.
Qed.

Lemma getCellEdgeLocation_within_segment_witness :
  ∃ (i : nat) (below above : Point3),
    [mkPoint3 0 0 10; mkPoint3 5 0 20] !! i = Some below
    ∧ [mkPoint3 0 0 10; mkPoint3 5 0 20] !! S i = Some above
    ∧ z below ≤ 15 ≤ z above
    ∧ Z.min (x below) (x above) ≤ 2 ≤ Z.max (x below) (x above)
    ∧ Z.min (y below) (y above) ≤ 0 ≤ Z.max (y below) (y above).
Proof.
  set (c2 := mkCell (prism (segment 0 10 0 0) (segment 0 0 5 0) 10 20) 1
                    (links [] [3%nat] [0%nat] [])).
  set (c3 := mkCell (prism (segment 0 0 5 0) (segment 20 0 20 10) 10 20) 1
                    (links [2%nat] [] [1%nat] [])).
  assert (HP : shared_edge one_edge_network 2 3 c2 c3
               = Some [mkPoint3 0 0 10; mkPoint3 5 0 20])
    by (vm_compute; reflexivity).
  assert (Hpoly : POLY [mkPoint3 0 0 10; mkPoint3 5 0 20])
    by (split; simpl; lia).
  assert (Hz15 : z (mkPoint3 0 0 10) ≤ 15 ≤ z (mkPoint3 5 0 20))
    by (simpl; lia).
  assert (Hrun : getCellEdgeLocation small_cells one_edge_network 2 3 15
                 = Ok (mkPoint 2 0)) by (vm_compute; reflexivity).
  exact (getCellEdgeLocation_within_segment small_cells one_edge_network 2 3
           c2 c3 _ (mkPoint3 0 0 10) (mkPoint3 5 0 20) 15 (mkPoint 2 0)
           eq_refl eq_refl HP Hpoly eq_refl eq_refl Hz15 Hrun).
Defined.

Lemma getCellEdgeLocation_at_stored_point_witness :
  getCellEdgeLocation small_cells one_edge_network 2 3 20 = Ok (mkPoint 5 0)
  ∧ getCellEdgeLocation small_cells one_edge_network 2 3 10 = Ok (mkPoint 0 0).
Proof.
  set (c2 := mkCell (prism (segment 0 10 0 0) (segment 0 0 5 0) 10 20) 1
                    (links [] [3%nat] [0%nat] [])).
  set (c3 := mkCell (prism (segment 0 0 5 0) (segment 20 0 20 10) 10 20) 1
                    (links [2%nat] [] [1%nat] [])).
  assert (HP : shared_edge one_edge_network 2 3 c2 c3
               = Some [mkPoint3 0 0 10; mkPoint3 5 0 20])
    by (vm_compute; reflexivity).
  assert (Hpoly : POLY [mkPoint3 0 0 10; mkPoint3 5 0 20])
    by (split; simpl; lia).
  split.
  - exact (getCellEdgeLocation_at_stored_point small_cells one_edge_network
             2 3 c2 c3 _ 1%nat (mkPoint3 5 0 20) (mkPoint3 0 0 10)
             eq_refl eq_refl HP Hpoly eq_refl eq_refl).
  - exact (getCellEdgeLocation_at_stored_point small_cells one_edge_network
             2 3 c2 c3 _ 0%nat (mkPoint3 0 0 10) (mkPoint3 5 0 20)
             eq_refl eq_refl HP Hpoly eq_refl eq_refl).
Defined.

(** ** Get Edge *)

Lemma getEdge_run (s : Cross3D) (net : Cross3DPrismEdgeNetwork)
    (cell_ptr : nat) (cell neighbour : Cell) (S V : Direction) (l : Link) :
  S = LEFT ∨ S = RIGHT →
  side_link cell S V = Some l →
  cell_data s !! to_index l = Some neighbour →
  getEdge s net cell_ptr cell S V
  = match edge_with_neighbour net cell_ptr (to_index l) cell neighbour S with
    | Some P => Ok P
    | None => Fault AssertionFailed
    end.
Proof.
  intros HS Hl Hn. unfold getEdge, side_link, back, front, cell_at in *.
  assert (Hlink : (if decide (V = UP) then defined (last (adjacent_cells cell S))
                   else defined (head (adjacent_cells cell S))) = Ok l).
  { destruct (decide (V = UP)); by rewrite Hl. }
  rewrite Hlink. simpl. rewrite Hn. simpl.
  unfold edge_with_neighbour, shared_edge, find_asserted.
  destruct HS as [-> | ->]; simpl.
  - destruct (decide (depth neighbour > depth cell
                      ∨ LEFT = LEFT ∧ depth neighbour = depth cell)) as [Hd|Hd].
    + destruct (decide (depth cell > depth neighbour)); [lia|]. reflexivity.
    + destruct (decide (depth cell > depth neighbour)) as [|Hn']; [reflexivity|].
      exfalso. apply Hd.
      destruct (decide (depth neighbour > depth cell)); [by left|].
      right. split; [done|lia].
  - destruct (decide (depth neighbour > depth cell
                      ∨ RIGHT = LEFT ∧ depth neighbour = depth cell))
      as [[Hd | [? _]]|Hd]; try discriminate.
    + destruct (decide (depth neighbour > depth cell)); [reflexivity|lia].
    + destruct (decide (depth neighbour > depth cell)) as [Hgt|]; [|reflexivity].
      exfalso. apply Hd. by left.
Qed.

(** X6: [getEdge] and [getCellEdgeLocation] agree on where the edge between a
    cell and its neighbour is stored: [getEdge] returns the polyline that a
    query between the two cells reads, and fails its assertion exactly when
    that polyline is missing. *)
Theorem getEdge_reads_shared_edge (s : Cross3D) (net : Cross3DPrismEdgeNetwork)
    (cell_ptr : nat) (cell neighbour : Cell) (S V : Direction) (l : Link) :
  S = LEFT ∨ S = RIGHT →
  side_link cell S V = Some l →
  cell_data s !! to_index l = Some neighbour →
  getEdge s net cell_ptr cell S V
  = match edge_with_neighbour net cell_ptr (to_index l) cell neighbour S with
    | Some P => Ok P
    | None => Fault AssertionFailed
    end.
Proof. apply getEdge_run. Qed.

Lemma getEdge_reads_shared_edge_witness :
  getEdge coarse_under_two_fine coarse_under_two_fine_edges 0
    (mkCell (prism (segment 0 0 0 1000) (segment 1000 0 1000 1000) 0 1000) 0
            (links [3%nat] [4%nat] [] [1%nat; 2%nat]))
    LEFT UP
  = Ok [mkPoint3 0 0 0; mkPoint3 0 1000 1000].
Proof.
  set (c0 := mkCell (prism (segment 0 0 0 1000) (segment 1000 0 1000 1000)
                           0 1000) 0
                    (links [3%nat] [4%nat] [] [1%nat; 2%nat])).
  set (c3 := mkCell (prism (segment (-1000) 0 (-1000) 1000)
                           (segment 0 0 0 1000) 0 1000) 0
                    (links [] [0%nat] [] [])).
  assert (Hl : side_link c0 LEFT UP = Some (mkLink 3)) by reflexivity.
  assert (Hn : cell_data coarse_under_two_fine !! to_index (mkLink 3) = Some c3)
    by reflexivity.
  rewrite (getEdge_reads_shared_edge coarse_under_two_fine
             coarse_under_two_fine_edges 0 c0 c3 LEFT UP (mkLink 3)
             (or_introl eq_refl) Hl Hn).
  vm_compute. reflexivity.
Defined.

(** X7: After the construction, [getEdge] finds the edge it looks for whenever
    the side lists involved are uniform in depth: the front cell of the side
    list of the cell is as deep as the neighbour [getEdge] picks, and the
    front cell of the opposite list of that neighbour is as deep as the cell
    (as when the two cells are each other's only neighbour). *)
Theorem getEdge_finds_owner (s : Cross3D)
    (intersection : LineSegment -> LineSegment -> Point)
    (angle_deg_gt_35 : Z -> Z -> bool) (DEBUG : bool)
    (net : Cross3DPrismEdgeNetwork) (cell_ptr : nat)
    (cell neighbour front_cell back_cell : Cell) (S V : Direction)
    (l lf lb : Link) :
  construct s intersection angle_deg_gt_35 DEBUG = Ok net →
  S = LEFT ∨ S = RIGHT →
  visited s cell_ptr →
  cell_data s !! cell_ptr = Some cell →
  side_link cell S V = Some l →
  visited s (to_index l) →
  cell_data s !! to_index l = Some neighbour →
  head (adjacent_cells cell S) = Some lf →
  cell_data s !! to_index lf = Some front_cell →
  depth front_cell = depth neighbour →
  head (adjacent_cells neighbour (opposite S)) = Some lb →
  cell_data s !! to_index lb = Some back_cell →
  depth back_cell = depth cell →
  ∃ P : list Point3,
    getEdge s net cell_ptr cell S V = Ok P ∧ (2 ≤ length P)%nat.
Proof.
  intros H HS Hvc Hcell Hl Hvn Hn Hlf Hf Hdf Hlb Hb Hdb.
  assert (Hown := fun m c => construct_owners s intersection angle_deg_gt_35
                               DEBUG net m c H).
  assert (Hlong := construct_all_long _ _ _ _ _ H).
  rewrite (getEdge_run s net cell_ptr cell neighbour S V l) by done.
  assert (Hback : getNeighborDepth s neighbour (opposite S) = Ok (depth cell)).
  { unfold getNeighborDepth, cell_at.
    destruct (adjacent_cells neighbour (opposite S)); [discriminate|].
    simpl in Hlb. injection Hlb as ->. rewrite Hb. simpl. congruence. }
  assert (Hprobe : getNeighborDepth s cell S = Ok (depth neighbour)).
  { unfold getNeighborDepth, cell_at.
    destruct (adjacent_cells cell S); [discriminate|].
    simpl in Hlf. injection Hlf as ->. rewrite Hf. simpl. congruence. }
  assert (Hsome : ∀ m c' cell', visited s c' → cell_data s !! c' = Some cell' →
            owns s cell' m → ∃ P, edges net m !! c' = Some P ∧ (2 ≤ length P)%nat).
  { intros m c' cell' Hv Hc Ho.
    destruct (proj2 (Hown m c')) as [P HP]; [split; [done|by exists cell']|].
    exists P. split; [done|]. by apply (Hlong m c'). }
  unfold edge_with_neighbour, shared_edge.
  destruct HS as [-> | ->]; simpl in *.
  - destruct (decide (depth cell > depth neighbour)) as [Hd|Hd].
    + destruct (Hsome LeftEdges cell_ptr cell Hvc Hcell) as (P & HP1 & HP);
        [by exists (depth neighbour)|]. simpl in HP1. rewrite HP1. by exists P.
    + destruct (Hsome RightEdges (to_index l) neighbour Hvn Hn) as (P & HP1 & HP);
        [exists (depth cell); split; [done|lia]|]. simpl in HP1. rewrite HP1. by exists P.
  - destruct (decide (depth neighbour > depth cell)) as [Hd|Hd].
    + destruct (Hsome LeftEdges (to_index l) neighbour Hvn Hn) as (P & HP1 & HP);
        [by exists (depth cell)|]. simpl in HP1. rewrite HP1. by exists P.
    + destruct (Hsome RightEdges cell_ptr cell Hvc Hcell) as (P & HP1 & HP);
        [exists (depth neighbour); split; [done|lia]|]. simpl in HP1. rewrite HP1. by exists P.
Qed.

Lemma getEdge_finds_owner_witness :
  ∃ (net : Cross3DPrismEdgeNetwork) (P : list Point3),
    construct coarse_under_two_fine axis_intersection no_angle_check false
    = Ok net
    ∧ getEdge coarse_under_two_fine net 0
        (mkCell (prism (segment 0 0 0 1000) (segment 1000 0 1000 1000) 0 1000)
                0 (links [3%nat] [4%nat] [] [1%nat; 2%nat]))
        LEFT UP = Ok P
    ∧ (2 ≤ length P)%nat.
Proof.
  destruct (construct coarse_under_two_fine axis_intersection no_angle_check
              false) as [net|f] eqn:E; [|vm_compute in E; discriminate].
  set (c0 := mkCell (prism (segment 0 0 0 1000) (segment 1000 0 1000 1000)
                           0 1000) 0
                    (links [3%nat] [4%nat] [] [1%nat; 2%nat])).
  set (c3 := mkCell (prism (segment (-1000) 0 (-1000) 1000)
                           (segment 0 0 0 1000) 0 1000) 0
                    (links [] [0%nat] [] [])).
  assert (Hv0 : visited coarse_under_two_fine 0).
  { exists [0%nat; 3%nat; 4%nat].
    split; apply list_elem_of_lookup; by exists 0%nat. }
  assert (Hv3 : visited coarse_under_two_fine (to_index (mkLink 3))).
  { exists [0%nat; 3%nat; 4%nat].
    split; apply list_elem_of_lookup; [by exists 0%nat | by exists 1%nat]. }
  destruct (getEdge_finds_owner coarse_under_two_fine axis_intersection
              no_angle_check false net 0 c0 c3 c3 c0 LEFT UP
              (mkLink 3) (mkLink 3) (mkLink 0)
              E (or_introl eq_refl) Hv0 eq_refl eq_refl Hv3 eq_refl
              eq_refl eq_refl eq_refl eq_refl eq_refl eq_refl)
    as (P & HP & Hlen).
  exists net, P. split; [reflexivity|]. split; [exact HP | exact Hlen].
Defined.

(** ** The second pass *)

Lemma for_each_fixed {S A : Type} (body : S -> A -> result S) (l : list A)
    (s : S) :
  (∀ a : A, a ∈ l → body s a = Ok s) → for_each body l s = Ok s.
Proof.
  induction l as [|a l IH]; intros H; simpl; [reflexivity|].
  rewrite (H a) by apply list_elem_of_here. simpl.
  apply IH. intros b Hb. apply H. by apply list_elem_of_further.
Qed.

(** X8: The second pass never touches the left-edge map; in the right-edge map
    it keeps the cells that store an edge, and a polyline it changes never
    loses points. *)
Theorem resolve_discontinuities_frame (s : Cross3D)
    (intersection : LineSegment -> LineSegment -> Point)
    (net net' : Cross3DPrismEdgeNetwork) :
  resolve_discontinuities s intersection net = Ok net' →
  cell_to_left_edge_locations net' = cell_to_left_edge_locations net
  ∧ (∀ c : nat, cell_to_right_edge_locations net !! c = None →
       cell_to_right_edge_locations net' !! c = None)
  ∧ (∀ (c : nat) (P : list Point3),
       cell_to_right_edge_locations net !! c = Some P →
       ∃ P' : list Point3,
         cell_to_right_edge_locations net' !! c = Some P'
         ∧ (length P ≤ length P')%nat).
Proof.
  unfold resolve_discontinuities. rewrite for_each_concat.
  set (I := fun n : Cross3DPrismEdgeNetwork =>
    cell_to_left_edge_locations n = cell_to_left_edge_locations net
    ∧ (∀ c : nat, cell_to_right_edge_locations net !! c = None →
         cell_to_right_edge_locations n !! c = None)
    ∧ (∀ (c : nat) (P : list Point3),
         cell_to_right_edge_locations net !! c = Some P →
         ∃ P' : list Point3,
           cell_to_right_edge_locations n !! c = Some P'
           ∧ (length P ≤ length P')%nat)).
  assert (Hstep : ∀ n n' c V, I n →
            preventZdiscontinuityProblem s intersection n c V = Ok n' → I n').
  { intros n n' c V (Hl & Hnone & Hsome) H.
    apply preventZdiscontinuityProblem_changes in H
      as [-> | (k & tr & adj & d & Htr & Hadj & ->)]; [done|].
    apply adjustEdgeEnd_length in Hadj. repeat split; simpl.
    - exact Hl.
    - intros c' Hc'. rewrite lookup_insert.
      destruct (decide (k = c')) as [->|?]; [|by apply Hnone].
      rewrite (Hnone c' Hc') in Htr. discriminate.
    - intros c' P HP. rewrite lookup_insert.
      destruct (Hsome c' P HP) as (P' & HP' & Hlen).
      destruct (decide (k = c')) as [->|?]; [|by exists P'].
      exists adj. split; [done|].
      assert (P' = tr) by congruence. subst. lia. }
  apply (for_each_preserves (resolve_cell s intersection) I).
  - intros c n n' Hn H. unfold resolve_cell in H.
    apply bind_Ok in H as (n1 & H1 & H2).
    eapply Hstep; [|exact H2]. eapply Hstep; [exact Hn|exact H1].
  - repeat split; try done. intros c P HP. exists P. split; [done|lia].
Qed.

Lemma resolve_discontinuities_frame_witness :
  ∃ net' : Cross3DPrismEdgeNetwork,
    resolve_discontinuities coarse_under_two_fine axis_intersection
      coarse_under_two_fine_edges = Ok net'
    ∧ cell_to_left_edge_locations net' = ∅.
Proof.
  destruct (resolve_discontinuities coarse_under_two_fine axis_intersection
              coarse_under_two_fine_edges) as [net'|f] eqn:E;
    [|vm_compute in E; discriminate].
  exists net'. split; [reflexivity|].
  exact (proj1 (resolve_discontinuities_frame _ _ _ _ E)).
Defined.

(** X9: When no visited cell has two or more cells above it or below it, the
    second pass returns the network as it got it. *)
Theorem resolve_discontinuities_nothing (s : Cross3D)
    (intersection : LineSegment -> LineSegment -> Point)
    (net : Cross3DPrismEdgeNetwork) :
  (∀ c : nat, visited s c →
     ∃ cell : Cell,
       cell_data s !! c = Some cell
       ∧ (length (adjacent_cells cell UP) < 2)%nat
       ∧ (length (adjacent_cells cell DOWN) < 2)%nat) →
  resolve_discontinuities s intersection net = Ok net.
Proof.
  intros H. unfold resolve_discontinuities. rewrite for_each_concat.
  apply for_each_fixed. intros c Hc.
  destruct (H c) as (cell & Hcell & Hup & Hdown).
  { apply elem_of_concat in Hc as (l & Hl & Hcl). by exists l. }
  unfold resolve_cell, preventZdiscontinuityProblem, cell_at.
  rewrite Hcell. simpl.
  rewrite decide_True by exact Hup. simpl.
  by rewrite decide_True by exact Hdown.
Qed.

Lemma resolve_discontinuities_nothing_witness :
  resolve_discontinuities small_cells no_intersection one_edge_network
  = Ok one_edge_network.
Proof.
  apply resolve_discontinuities_nothing.
  intros c (layer & Hlayer & Hc).
  repeat (apply elem_of_cons in Hlayer as [-> | Hlayer]);
    try (by apply not_elem_of_nil in Hlayer);
    repeat (apply elem_of_cons in Hc as [-> | Hc]);
    try (by apply not_elem_of_nil in Hc);
    eexists; (split; [reflexivity|]); simpl; lia.
Defined.

(** ** The inclination check *)

Lemma check_from_passes (angle_deg_gt_35 : Z -> Z -> bool) (rest : list Point3) :
  ∀ below : Point3,
    (∀ (i : nat) (p q : Point3),
       (below :: rest) !! i = Some p → (below :: rest) !! S i = Some q →
       passes_angle_check angle_deg_gt_35 p q) →
    check_from angle_deg_gt_35 below rest = Ok tt.
Proof.
  induction rest as [|above rest IH]; intros below H; simpl; [reflexivity|].
  assert (Ha : passes_angle_check angle_deg_gt_35 below above)
    by (by apply (H 0%nat)).
  unfold passes_angle_check in Ha. rewrite Ha. simpl.
  apply IH. intros i p q Hp Hq. by apply (H (S i)).
Qed.

(** X10: [debugCheckInclination] lets a polyline through iff it has more than
    one point and every two consecutive points pass the angle test; what
    stops it otherwise is a failed assertion, never an access outside the
    polyline. *)
Theorem debugCheckInclination_passes (angle_deg_gt_35 : Z -> Z -> bool)
    (edge : list Point3) :
  (debugCheckInclination angle_deg_gt_35 edge = Ok tt
   ↔ (1 < length edge)%nat
     ∧ ∀ (i : nat) (p q : Point3),
         edge !! i = Some p → edge !! S i = Some q →
         passes_angle_check angle_deg_gt_35 p q)
  ∧ (debugCheckInclination angle_deg_gt_35 edge ≠ Ok tt →
     debugCheckInclination angle_deg_gt_35 edge = Fault AssertionFailed).
Proof.
  split.
  - split.
    + intros H. split; [|by apply debugCheckInclination_pairs].
      unfold debugCheckInclination in H. apply bind_Ok in H as (u & Hu & _).
      by apply assert_Ok, bool_decide_eq_true_1 in Hu.
    + intros [Hlen Hpairs]. unfold debugCheckInclination, front.
      rewrite bool_decide_eq_true_2 by exact Hlen. simpl.
      destruct edge as [|below rest]; [simpl in Hlen; lia|]. simpl.
      by apply check_from_passes.
  - unfold debugCheckInclination, front.
    destruct (bool_decide (1 < length edge)%nat) eqn:Hlen; simpl; [|done].
    apply bool_decide_eq_true_1 in Hlen.
    destruct edge as [|below rest]; [simpl in Hlen; lia|]. simpl.
    clear Hlen. revert below.
    induction rest as [|above rest IH]; intros below H; simpl in *; [done|].
    destruct (angle_deg_gt_35 _ _); simpl in *; [by apply IH|done].
Qed.

(** ** The first pass never rewrites an edge *)

Lemma edges_kept_refl (net : Cross3DPrismEdgeNetwork) : edges_kept net net.
Proof. by intros m c P. Qed.

Lemma edges_kept_trans (n1 n2 n3 : Cross3DPrismEdgeNetwork) :
  edges_kept n1 n2 → edges_kept n2 n3 → edges_kept n1 n3.
Proof. intros H12 H23 m c P HP. by apply H23, H12. Qed.

Lemma set_edges_same (net : Cross3DPrismEdgeNetwork) (m : EdgeMap) :
  set_edges net m (edges net m) = net.
Proof. by destruct net, m. Qed.

Lemma emplace_kept (net : Cross3DPrismEdgeNetwork) (m : EdgeMap) (c : nat)
    (Q : list Point3) :
  edges_kept net (set_edges net m (emplace c Q (edges net m))).
Proof.
  intros m' k P HP. rewrite edges_set_edges.
  destruct (decide (m = m')) as [<-|?]; [|done].
  unfold emplace. destruct (edges net m !! c) eqn:E; [done|].
  rewrite lookup_insert. destruct (decide (c = k)) as [->|?]; [congruence|done].
Qed.

(** The oscillation routine reads the maps through its one lookup, so it
    gives the same polyline on a network that kept all edges. *)
Lemma applyOscillationConstraints_kept (s : Cross3D)
    (n1 n2 : Cross3DPrismEdgeNetwork) (cell : Cell) (S V : Direction)
    (P Q : list Point3) :
  edges_kept n1 n2 →
  applyOscillationConstraints s n1 cell S V P = Ok Q →
  applyOscillationConstraints s n2 cell S V P = Ok Q.
Proof.
  intros Hkept. unfold applyOscillationConstraints.
  destruct (decide (adjacent_cells cell V = [])); [done|].
  destruct (if decide (S = LEFT) then front (adjacent_cells cell V)
            else back (adjacent_cells cell V)) as [l_v|]; simpl; [|done].
  destruct (cell_at s (to_index l_v)) as [n_v|]; simpl; [|done].
  destruct (assert _) as [[]|]; simpl; [|done].
  destruct (if decide (V = UP) then front (adjacent_cells n_v S)
            else back (adjacent_cells n_v S)) as [l_vs|]; simpl; [|done].
  destruct (cell_at s (to_index l_vs)) as [n_vs|]; simpl; [|done].
  destruct (decide (depth cell >= _)); [done|].
  intros H. apply bind_Ok in H as (e & He & H).
  assert (He' : (if decide (depth n_v > depth n_vs
                            ∨ S = RIGHT ∧ depth n_v = depth n_vs)
                 then find_asserted
                        (edges n2 (if decide (S = LEFT) then LeftEdges
                                   else RightEdges)) (to_index l_v)
                 else find_asserted
                        (edges n2 (if decide (S = RIGHT) then LeftEdges
                                   else RightEdges)) (to_index l_vs)) = Ok e).
  { destruct (decide (_ ∨ _)); apply find_asserted_Ok, Hkept;
      by apply find_asserted_Ok. }
  rewrite He'. exact H.
Qed.

Lemma addCellEdge_kept (s : Cross3D) (n n' : Cross3DPrismEdgeNetwork)
    (c : nat) (cell : Cell) (m : EdgeMap) (S : Direction) :
  addCellEdge s n c cell m S = Ok n' →
  edges_kept n n' ∧ is_Some (edges n' m !! c).
Proof.
  intros H. unfold addCellEdge in H.
  apply bind_Ok in H as (Q1 & _ & H). apply bind_Ok in H as (Q & _ & H).
  injection H as <-. split; [apply emplace_kept|].
  rewrite edges_set_edges, decide_True by done. apply lookup_emplace. by left.
Qed.

Lemma addCellEdges_kept (s : Cross3D) (n n' : Cross3DPrismEdgeNetwork)
    (c : nat) :
  addCellEdges s n c = Ok n' → edges_kept n n'.
Proof.
  intros H. unfold addCellEdges in H. run_inv H.
  apply (edges_kept_trans n v1 n').
  - destruct (decide (depth v > v0)); [by eapply addCellEdge_kept|].
    injection Hv1 as <-. apply edges_kept_refl.
  - destruct (decide (depth v >= v2)); [by eapply addCellEdge_kept|].
    injection H as <-. apply edges_kept_refl.
Qed.

Lemma first_pass_kept (s : Cross3D) (l : list nat)
    (n n' : Cross3DPrismEdgeNetwork) :
  for_each (addCellEdges s) l n = Ok n' → edges_kept n n'.
Proof.
  apply (for_each_preserves (addCellEdges s) (edges_kept n)).
  - intros c n1 n2 H1 H. eapply edges_kept_trans; [exact H1|].
    by eapply addCellEdges_kept.
  - apply edges_kept_refl.
Qed.

Lemma addCellEdge_again (s : Cross3D) (n0 n1 n : Cross3DPrismEdgeNetwork)
    (c : nat) (cell : Cell) (m : EdgeMap) (S : Direction) :
  addCellEdge s n0 c cell m S = Ok n1 → edges_kept n1 n →
  addCellEdge s n c cell m S = Ok n.
Proof.
  intros H Hkept.
  destruct (addCellEdge_kept _ _ _ _ _ _ _ H) as [H01 [Q0 HQ0]].
  assert (H0n : edges_kept n0 n) by (by eapply edges_kept_trans).
  unfold addCellEdge in *.
  apply bind_Ok in H as (Q1 & HQ1 & H). apply bind_Ok in H as (Q & HQ & _).
  rewrite (applyOscillationConstraints_kept s n0 n _ _ _ _ _ H0n HQ1). simpl.
  rewrite (applyOscillationConstraints_kept s n0 n _ _ _ _ _ H0n HQ). simpl.
  unfold emplace. rewrite (Hkept m c Q0 HQ0). by rewrite set_edges_same.
Qed.

(** X11: A cell listed twice is harmless: on the network of a first pass that has
    handled a cell already, [addCellEdges] for that cell returns and changes
    nothing ([emplace] does not overwrite, and the oscillation constraint
    reads the same reference edges). *)
Theorem addCellEdges_again (s : Cross3D) (done : list nat) (c : nat)
    (net : Cross3DPrismEdgeNetwork) :
  for_each (addCellEdges s) done (mkNetwork ∅ ∅) = Ok net →
  c ∈ done →
  addCellEdges s net c = Ok net.
Proof.
  intros Hrun Hc.
  apply list_elem_of_split in Hc as (d1 & d2 & ->).
  rewrite for_each_app in Hrun. apply bind_Ok in Hrun as (n0 & _ & Hrun).
  simpl in Hrun. apply bind_Ok in Hrun as (n1 & Hc & Hrest).
  apply first_pass_kept in Hrest.
  unfold addCellEdges in *. run_inv Hc. rewrite Hv. simpl. rewrite Hv0. simpl.
  assert (Hleft : (if decide (depth v > v0)
                   then addCellEdge s net c v LeftEdges LEFT
                   else Ok net) = Ok net).
  { destruct (decide (depth v > v0)); [|done].
    apply (addCellEdge_again s n0 v1); [done|].
    apply (edges_kept_trans v1 n1 net); [|done].
    destruct (decide (depth v >= v2)); [by eapply addCellEdge_kept|].
    injection Hc as <-. apply edges_kept_refl. }
  rewrite Hleft. simpl. rewrite Hv2. simpl.
  destruct (decide (depth v >= v2)); [|done].
  by apply (addCellEdge_again s v1 n1).
Qed.

Lemma addCellEdges_again_witness :
  addCellEdges coarse_under_two_fine coarse_under_two_fine_edges 1
  = Ok coarse_under_two_fine_edges.
Proof.
  apply (addCellEdges_again coarse_under_two_fine
           [1%nat; 2%nat; 5%nat; 0%nat; 3%nat; 4%nat]).
  - vm_compute. reflexivity.
  - apply list_elem_of_lookup. by exists 0%nat.
Defined.

Lemma addCellEdge_straight (s : Cross3D) (n : Cross3DPrismEdgeNetwork)
    (c : nat) (cell : Cell) (m : EdgeMap) (S : Direction) :
  adjacent_cells cell UP = [] → adjacent_cells cell DOWN = [] →
  addCellEdge s n c cell m S
  = Ok (set_edges n m (emplace c (straight_edge cell S) (edges n m))).
Proof.
  intros Hup Hdown. unfold addCellEdge, applyOscillationConstraints.
  rewrite Hup, Hdown. simpl. reflexivity.
Qed.

(** X12: A cell with no cell above it and none below it keeps the straight
    2-point edge through the first pass, for every side it owns: from the
    [from] end of the side edge of its triangle at [z_min] to the [to] end at
    [z_max] (the two swapped when the cell is not expanding). *)
Theorem first_pass_straight_edge (s : Cross3D) (net : Cross3DPrismEdgeNetwork)
    (c : nat) (cell : Cell) (m : EdgeMap) :
  build_edges s (mkNetwork ∅ ∅) = Ok net →
  visited s c →
  cell_data s !! c = Some cell →
  adjacent_cells cell UP = [] →
  adjacent_cells cell DOWN = [] →
  owns s cell m →
  edges net m !! c = Some (straight_edge cell (side_of_map m)).
Proof.
  intros Hrun Hvis Hcell Hup Hdown Hown.
  unfold build_edges in Hrun. rewrite for_each_concat in Hrun.
  apply visited_processed in Hvis.
  apply list_elem_of_split_l in Hvis as (d1 & d2 & Hsplit & Hfresh).
  rewrite Hsplit in Hrun.
  rewrite for_each_app in Hrun. apply bind_Ok in Hrun as (n0 & Hpre & Hrun).
  simpl in Hrun. apply bind_Ok in Hrun as (n1 & Hc & Hrest).
  apply first_pass_kept in Hrest. apply Hrest.
  assert (Hbuilt : built s ([] ++ d1) n0).
  { apply (for_each_invariant (addCellEdges s) (built s) d1
             (addCellEdges_built s) [] (mkNetwork ∅ ∅) n0); [|exact Hpre].
    intros m' c'. split.
    - destruct m'; simpl; rewrite lookup_empty; intros [? ?]; discriminate.
    - intros [Hin _]. by apply not_elem_of_nil in Hin. }
  assert (Hnone : ∀ m', edges n0 m' !! c = None).
  { intros m'. destruct (edges n0 m' !! c) eqn:E; [|done].
    exfalso. apply Hfresh.
    assert (Hs : is_Some (edges n0 m' !! c)) by (by eexists).
    by apply (Hbuilt m' c) in Hs as [Hin _]. }
  unfold addCellEdges, cell_at in Hc. rewrite Hcell in Hc. simpl in Hc.
  apply bind_Ok in Hc as (dl & Hdl & Hc). apply bind_Ok in Hc as (na & Hna & Hc).
  apply bind_Ok in Hc as (dr & Hdr & Hc).
  rewrite !addCellEdge_straight in * by done.
  destruct m; simpl in Hown; destruct Hown as (d & Hd & Hgt).
  - assert (d = dl) as -> by congruence.
    rewrite decide_True in Hna by done. injection Hna as <-.
    assert (Hl : edges (set_edges n0 LeftEdges
                          (emplace c (straight_edge cell LEFT)
                             (edges n0 LeftEdges))) LeftEdges !! c
                 = Some (straight_edge cell LEFT)).
    { pose proof (Hnone LeftEdges) as Hn. simpl in *.
      unfold emplace. rewrite Hn. by rewrite lookup_insert_eq. }
    destruct (decide (depth cell >= dr)); injection Hc as <-; exact Hl.
  - assert (d = dr) as -> by congruence.
    rewrite decide_True in Hc by done. injection Hc as <-.
    assert (Hr : edges na RightEdges !! c = None).
    { destruct (decide (depth cell > dl)); injection Hna as <-;
        [|apply Hnone]. simpl. apply (Hnone RightEdges). }
    simpl. simpl in Hr. unfold emplace. rewrite Hr.
    by rewrite lookup_insert_eq.
Qed.

Lemma first_pass_straight_edge_witness :
  ∃ net : Cross3DPrismEdgeNetwork,
    build_edges coarse_under_two_fine (mkNetwork ∅ ∅) = Ok net
    ∧ cell_to_right_edge_locations net !! 3%nat
      = Some [mkPoint3 0 0 0; mkPoint3 0 1000 1000].
Proof.
  destruct (build_edges coarse_under_two_fine (mkNetwork ∅ ∅))
    as [net|f] eqn:E; [|vm_compute in E; discriminate].
  exists net. split; [reflexivity|].
  apply (first_pass_straight_edge coarse_under_two_fine net 3
           (mkCell (prism (segment (-1000) 0 (-1000) 1000)
                          (segment 0 0 0 1000) 0 1000) 0
                   (links [] [0%nat] [] []))
           RightEdges E).
  - exists [0%nat; 3%nat; 4%nat].
    split; apply list_elem_of_lookup; [by exists 0%nat | by exists 1%nat].
  - reflexivity.
  - reflexivity.
  - reflexivity.
  - exists 0. split; [reflexivity|]. simpl. lia.
Defined.

(** * Properties of LinesSet *)

(** ** removeAt *)

Lemma removeAt_valid (lines_ : list (list Point)) (index : nat)
    (line : list Point) :
  lines_ !! index = Some line →
  ∃ rest : list (list Point),
    LinesSet.removeAt lines_ index = Ok rest
    ∧ line :: rest ≡ₚ lines_
    ∧ S (length rest) = length lines_.
Proof.
  intros Hline. apply lookup_lt_Some in Hline as Hlt.
  apply list_elem_of_split_length in Hline as (l1 & l2 & -> & ->).
  unfold LinesSet.removeAt.
  destruct (decide (length (l1 ++ line :: l2) = 1%nat)) as [H1|H1].
  { rewrite length_app in H1. simpl in H1.
    destruct l1; [|simpl in H1; lia]. destruct l2; [|simpl in H1; lia].
    exists []. by repeat split. }
  destruct (decide (1 < length (l1 ++ line :: l2))%nat) as [Hlen|Hlen].
  2:{ rewrite length_app in Hlen. simpl in Hlen.
      rewrite length_app in H1. simpl in H1. lia. }
  rewrite bool_decide_eq_true_2 by exact Hlt. simpl.
  destruct (decide (l2 = [])) as [->|Hne].
  - unfold back. rewrite last_snoc. simpl.
    rewrite decide_False by (rewrite length_app; simpl; lia).
    exists l1. split; [|split].
    + f_equal. rewrite length_app. simpl.
      replace (length l1 + 1 - 1)%nat with (length l1) by lia.
      by rewrite take_app_length.
    + by rewrite Permutation_cons_append.
    + rewrite length_app. simpl. lia.
  - destruct (exists_last Hne) as (l2' & y & ->).
    assert (Hback : back (l1 ++ line :: l2' ++ [y]) = Ok y).
    { unfold back. change (line :: l2' ++ [y]) with ((line :: l2') ++ [y]).
      by rewrite (assoc_L (++)), last_snoc. }
    rewrite Hback. simpl.
    rewrite decide_True by (rewrite !length_app; simpl; rewrite length_app; simpl; lia).
    exists (l1 ++ y :: l2'). split; [|split].
    + f_equal.
      rewrite length_insert, insert_app_r_alt by lia.
      replace (length l1 - length l1)%nat with 0%nat by lia. simpl.
      change (y :: l2' ++ [y]) with ((y :: l2') ++ [y]).
      rewrite (assoc_L (++)).
      replace (length (l1 ++ line :: l2' ++ [y]) - 1)%nat
        with (length (l1 ++ y :: l2')).
      * by rewrite take_app_length.
      * rewrite !length_app. simpl. rewrite length_app. simpl. lia.
    + symmetry. etransitivity; [symmetry; apply Permutation_middle|].
      apply perm_skip, Permutation_app_head.
      symmetry. apply Permutation_cons_append.
    + rewrite !length_app. simpl. rewrite length_app. simpl. lia.
Qed.

(** X13: Removing the line at a valid index returns, and leaves exactly the other
    lines: the set has one line less, every other line but the last stays
    where it was, and the last line takes the place of the removed one. *)
Theorem removeAt_removes (lines_ : list (list Point)) (index : nat)
    (line : list Point) :
  lines_ !! index = Some line →
  ∃ rest : list (list Point),
    LinesSet.removeAt lines_ index = Ok rest
    ∧ line :: rest ≡ₚ lines_
    ∧ S (length rest) = length lines_
    ∧ (∀ i : nat, (i < length rest)%nat → i ≠ index → rest !! i = lines_ !! i)
    ∧ ((index < length rest)%nat → rest !! index = last lines_).
Proof.
  intros Hline.
  destruct (removeAt_valid lines_ index line Hline)
    as (rest & Hrun & Hperm & Hsize).
  exists rest. do 3 (split; [done|]).
  unfold LinesSet.removeAt in Hrun.
  destruct (decide (length lines_ = 1%nat)) as [H1|H1].
  { injection Hrun as <-. split; simpl; intros; lia. }
  destruct (decide (1 < length lines_)%nat) as [Hlen|Hlen]; [|lia].
  apply bind_Ok in Hrun as (u & _ & Hrun).
  apply bind_Ok in Hrun as (last_line & Hback & Hrun).
  apply defined_Ok in Hback. injection Hrun as Hrest.
  assert (Hr : length rest = (length lines_ - 1)%nat) by lia.
  rewrite Hr. rewrite <- Hrest. clear Hrest.
  destruct (decide (index < length lines_ - 1)%nat) as [Hin|Hin].
  - rewrite length_insert. split.
    + intros i Hi Hne. rewrite lookup_take_lt by lia.
      by rewrite list_lookup_insert_ne.
    + intros Hi. rewrite lookup_take_lt by lia.
      rewrite list_lookup_insert_eq by lia. done.
  - split.
    + intros i Hi Hne. by rewrite lookup_take_lt by lia.
    + intros Hi. lia.
Qed.

Lemma removeAt_removes_witness :
  ∃ rest : list (list Point),
    LinesSet.removeAt [[mkPoint 0 0]; [mkPoint 1 1]; [mkPoint 2 2]] 0 = Ok rest
    ∧ [mkPoint 0 0] :: rest ≡ₚ [[mkPoint 0 0]; [mkPoint 1 1]; [mkPoint 2 2]]
    ∧ S (length rest) = 3%nat
    ∧ (∀ i : nat, (i < length rest)%nat → i ≠ 0%nat →
         rest !! i = [[mkPoint 0 0]; [mkPoint 1 1]; [mkPoint 2 2]] !! i)
    ∧ ((0 < length rest)%nat → rest !! 0%nat = Some [mkPoint 2 2]).
Proof.
  exact (removeAt_removes [[mkPoint 0 0]; [mkPoint 1 1]; [mkPoint 2 2]] 0
           [mkPoint 0 0] eq_refl).
Defined.

(** X14: With an index that names no line, [removeAt] leaves an empty set empty
    and fails its assertion on a set of two or more lines; on a set of one
    line it removes that line all the same: the index is not looked at. *)
Theorem removeAt_out_of_range (lines_ : list (list Point)) (index : nat) :
  (length lines_ ≤ index)%nat →
  LinesSet.removeAt lines_ index
  = if decide (length lines_ ≤ 1)%nat then Ok []
    else Fault AssertionFailed.
Proof.
  intros Hge. unfold LinesSet.removeAt.
  destruct (decide (length lines_ = 1%nat)) as [H1|H1].
  { by rewrite decide_True by lia. }
  destruct (decide (1 < length lines_)%nat) as [Hlen|Hlen].
  - rewrite decide_False by lia.
    by rewrite bool_decide_eq_false_2 by lia.
  - rewrite decide_True by lia.
    destruct lines_; [done|simpl in *; lia].
Qed.

Lemma removeAt_out_of_range_witness :
  LinesSet.removeAt [[mkPoint 0 0; mkPoint 5 5]] 7 = Ok [].
Proof.
  exact (removeAt_out_of_range [[mkPoint 0 0; mkPoint 5 5]] 7
           ltac:(simpl; lia)).
Defined.

(** ** pointCount *)

Lemma pointCount_from (lines_ : list (list Point)) (n : nat) :
  fold_left (fun (total : nat) (line : list Point) => (total + length line)%nat)
            lines_ n
  = (n + LinesSet.pointCount lines_)%nat.
Proof.
  unfold LinesSet.pointCount. revert n.
  induction lines_ as [|l lines_ IH]; intros n; simpl; [lia|].
  rewrite (IH (n + length l)%nat), (IH (length l)). lia.
Qed.

Lemma pointCount_app (l1 l2 : list (list Point)) :
  LinesSet.pointCount (l1 ++ l2)
  = (LinesSet.pointCount l1 + LinesSet.pointCount l2)%nat.
Proof.
  unfold LinesSet.pointCount at 1. rewrite fold_left_app.
  fold (LinesSet.pointCount l1). by rewrite pointCount_from.
Qed.

Lemma pointCount_cons (l : list Point) (lines_ : list (list Point)) :
  LinesSet.pointCount (l :: lines_)
  = (length l + LinesSet.pointCount lines_)%nat.
Proof. unfold LinesSet.pointCount at 1. simpl. by rewrite pointCount_from. Qed.

Lemma pointCount_Permutation (l1 l2 : list (list Point)) :
  l1 ≡ₚ l2 → LinesSet.pointCount l1 = LinesSet.pointCount l2.
Proof.
  induction 1 as [|x l l' _ IH|x y l|l l' l'' _ IH1 _ IH2].
  - reflexivity.
  - by rewrite !pointCount_cons, IH.
  - rewrite !pointCount_cons. lia.
  - congruence.
Qed.

Lemma push_back_all_app (lines_ other : list (list Point)) :
  LinesSet.push_back_all lines_ other = lines_ ++ other.
Proof.
  unfold LinesSet.push_back_all. revert lines_.
  induction other as [|l other IH]; intros lines_; simpl.
  - by rewrite app_nil_r.
  - rewrite IH. by rewrite <- (assoc_L (++)).
Qed.

(** X15: The point count follows every way of adding lines: one line adds its
    points whether or not [checkNonEmpty] drops it (a dropped line is empty),
    a whole set adds its point count, a segment adds two points. *)
Theorem pointCount_push_back (lines_ other : list (list Point))
    (line : list Point) (checkNonEmpty : bool) (from to : Point) :
  LinesSet.pointCount (LinesSet.push_back lines_ line checkNonEmpty)
  = (LinesSet.pointCount lines_ + length line)%nat
  ∧ LinesSet.pointCount (LinesSet.push_back_all lines_ other)
    = (LinesSet.pointCount lines_ + LinesSet.pointCount other)%nat
  ∧ LinesSet.pointCount (LinesSet.addSegment lines_ from to)
    = (LinesSet.pointCount lines_ + 2)%nat.
Proof.
  split; [|split].
  - unfold LinesSet.push_back, LinesSet.empty.
    destruct checkNonEmpty; simpl.
    + destruct (decide (line = [])) as [->|Hne].
      * rewrite bool_decide_eq_true_2 by done. simpl. lia.
      * rewrite bool_decide_eq_false_2 by done. simpl.
        rewrite pointCount_app, pointCount_cons. simpl.
        unfold LinesSet.pointCount at 2. simpl. lia.
    + rewrite pointCount_app, pointCount_cons.
      unfold LinesSet.pointCount at 2. simpl. lia.
  - by rewrite push_back_all_app, pointCount_app.
  - unfold LinesSet.addSegment. rewrite pointCount_app, pointCount_cons.
    unfold LinesSet.pointCount at 2. simpl. lia.
Qed.

(** X16: Removing a line at a valid index takes exactly its points off the point
    count. *)
Theorem pointCount_removeAt (lines_ rest : list (list Point)) (index : nat)
    (line : list Point) :
  lines_ !! index = Some line →
  LinesSet.removeAt lines_ index = Ok rest →
  LinesSet.pointCount lines_
  = (LinesSet.pointCount rest + length line)%nat.
Proof.
  intros Hline Hrun.
  destruct (removeAt_valid lines_ index line Hline)
    as (rest' & Hrun' & Hperm & _).
  assert (rest' = rest) as -> by congruence.
  rewrite <- (pointCount_Permutation _ _ Hperm), pointCount_cons. lia.
Qed.

Lemma pointCount_removeAt_witness :
  LinesSet.pointCount [[mkPoint 0 0; mkPoint 1 0]; [mkPoint 1 1]; [mkPoint 2 2]]
  = (LinesSet.pointCount [[mkPoint 2 2]; [mkPoint 1 1]] + 2)%nat.
Proof.
  exact (pointCount_removeAt
           [[mkPoint 0 0; mkPoint 1 0]; [mkPoint 1 1]; [mkPoint 2 2]]
           [[mkPoint 2 2]; [mkPoint 1 1]] 0 [mkPoint 0 0; mkPoint 1 0]
           eq_refl eq_refl).
Defined.

(** ** length *)

Lemma to_int_range (v : Z) : - 2 ^ 31 ≤ LinesSet.to_int v < 2 ^ 31.
Proof.
  unfold LinesSet.to_int.
  pose proof (Z.mod_pos_bound (v + 2 ^ 31) (2 ^ 32) ltac:(lia)). lia.
Qed.

Lemma to_int_small (v : Z) : - 2 ^ 31 ≤ v < 2 ^ 31 → LinesSet.to_int v = v.
Proof.
  intros H. unfold LinesSet.to_int. rewrite Z.mod_small by lia. lia.
Qed.

Lemma to_int_add (a b : Z) :
  LinesSet.to_int (LinesSet.to_int a + b) = LinesSet.to_int (a + b).
Proof.
  unfold LinesSet.to_int. f_equal.
  replace ((a + 2 ^ 31) mod 2 ^ 32 - 2 ^ 31 + b + 2 ^ 31)
    with ((a + 2 ^ 31) mod 2 ^ 32 + b) by lia.
  rewrite Z.add_mod_idemp_l by lia. f_equal. lia.
Qed.

Lemma accumulate_length_from (line_length : list Point -> Z)
    (lines_ : list (list Point)) (init : Z) :
  (∀ line : list Point, line ∈ lines_ → 0 ≤ line_length line < 2 ^ 62) →
  - 2 ^ 31 ≤ init < 2 ^ 31 →
  LinesSet.accumulate_length line_length lines_ init
  = Ok (LinesSet.to_int (init + total_length line_length lines_)).
Proof.
  unfold LinesSet.accumulate_length. revert init.
  induction lines_ as [|l lines_ IH]; intros init Hlen Hinit; simpl.
  - rewrite Z.add_0_r. by rewrite to_int_small.
  - assert (Hl : 0 ≤ line_length l < 2 ^ 62)
      by (apply Hlen, list_elem_of_here).
    assert (Hin : LinesSet.in_coord_t (init + line_length l) = true).
    { unfold LinesSet.in_coord_t. apply andb_true_intro. split.
      - apply Z.leb_le. lia.
      - apply Z.ltb_lt. lia. }
    rewrite Hin. simpl. rewrite IH.
    + rewrite to_int_add. do 2 f_equal. lia.
    + intros line Hline. apply Hlen. by apply list_elem_of_further.
    + apply to_int_range.
Qed.

(** X17: [length] returns the total length of the lines reduced to an [int]: the
    running total of [std::accumulate] has the type of its initial value, the
    literal [0].  The result is the total length iff that is below 2^31. *)
Theorem length_is_total_as_int (line_length : list Point -> Z)
    (lines_ : list (list Point)) :
  (∀ line : list Point, line ∈ lines_ → 0 ≤ line_length line < 2 ^ 62) →
  LinesSet.length line_length lines_
  = Ok (LinesSet.to_int (total_length line_length lines_))
  ∧ (LinesSet.length line_length lines_ = Ok (total_length line_length lines_)
     ↔ total_length line_length lines_ < 2 ^ 31).
Proof.
  intros Hlen.
  assert (Hpos : 0 ≤ total_length line_length lines_).
  { clear -Hlen. induction lines_ as [|l lines_ IH]; simpl; [lia|].
    assert (0 ≤ line_length l < 2 ^ 62) by apply Hlen, list_elem_of_here.
    assert (0 ≤ total_length line_length lines_); [|lia].
    apply IH. intros line Hline. apply Hlen. by apply list_elem_of_further. }
  assert (Hrun : LinesSet.length line_length lines_
                 = Ok (LinesSet.to_int (total_length line_length lines_))).
  { unfold LinesSet.length. rewrite accumulate_length_from by (done || lia).
    by rewrite Z.add_0_l. }
  split; [exact Hrun|]. rewrite Hrun. split.
  - intros H. injection H as H.
    pose proof (to_int_range (total_length line_length lines_)). lia.
  - intros H. by rewrite to_int_small by lia.
Qed.

Lemma length_is_total_as_int_witness :
  LinesSet.length (fun line => 1500000000 * Z.of_nat (length line))
    [[mkPoint 0 0]; [mkPoint 1 1]]
  = Ok (-1294967296).
Proof.
  destruct (length_is_total_as_int
              (fun line => 1500000000 * Z.of_nat (length line))
              [[mkPoint 0 0]; [mkPoint 1 1]]) as [Hrun _].
  - intros line Hline.
    repeat (apply elem_of_cons in Hline as [-> | Hline]);
      try (by apply not_elem_of_nil in Hline); simpl; lia.
  - exact Hrun.
Defined.

(** ** removeDegenerateVerts *)

Section DegenerateVertsOfALine.

Variable dot : Point -> Point -> Z.
Variable vSize : Point -> Z.

Lemma pop_degenerate_from_back_suffix (next : Point) (backwards : list Point) :
  ∃ popped : list Point,
    backwards
    = popped ++ LinesSet.pop_degenerate_from_back dot vSize next backwards
    ∧ (backwards ≠ [] →
       LinesSet.pop_degenerate_from_back dot vSize next backwards ≠ []).
Proof.
  induction backwards as [|b rest IH].
  - exists []. by split.
  - destruct rest as [|a rest'].
    + exists []. by split.
    + simpl. destruct (LinesSet.isDegenerate dot vSize a b next).
      * destruct IH as (popped & Heq & Hne). exists (b :: popped). split.
        -- simpl. f_equal. exact Heq.
        -- intros _. by apply Hne.
      * exists []. by split.
Qed.

(** The inner loop pops points off the back and leaves at least one. *)
Lemma pop_degenerate_prefix (next : Point) (res : list Point) :
  ∃ popped : list Point,
    res = LinesSet.pop_degenerate dot vSize next res ++ popped
    ∧ (res ≠ [] →
       LinesSet.pop_degenerate dot vSize next res ≠ []
       ∧ head (LinesSet.pop_degenerate dot vSize next res) = head res).
Proof.
  unfold LinesSet.pop_degenerate.
  destruct (pop_degenerate_from_back_suffix next (reverse res))
    as (popped & Heq & Hne).
  set (kept := LinesSet.pop_degenerate_from_back dot vSize next (reverse res))
    in *.
  assert (Hres : res = reverse kept ++ reverse popped).
  { by rewrite <- reverse_app, <- Heq, reverse_involutive. }
  exists (reverse popped). split; [exact Hres|].
  intros Hnil.
  assert (Hkept : reverse kept ≠ []).
  { intros Hr. apply Hne.
    - intros Hrev. apply Hnil.
      by rewrite <- (reverse_involutive res), Hrev.
    - by rewrite <- (reverse_involutive kept), Hr. }
  split; [exact Hkept|].
  apply (f_equal head) in Hres. rewrite Hres.
  by destruct (reverse kept).
Qed.

Lemma sublist_take_S (poly : list Point) (i : nat) (res : list Point) :
  res `sublist_of` take i poly → res `sublist_of` take (S i) poly.
Proof.
  intros H. destruct (poly !! i) as [p|] eqn:Hp.
  - rewrite (take_S_r _ _ _ Hp). by apply sublist_inserts_r.
  - apply lookup_ge_None in Hp. by rewrite !take_ge in * by lia.
Qed.

(** The loop over the vertices returns; what it builds is a subsequence of
    the vertices it has gone over, it never empties a vector that holds a
    point, and it keeps the first point of such a vector. *)
Lemma scan_vertices_spec (poly : list Point) (k : nat) :
  ∀ (i : nat) (res : list Point) (isChanged : bool),
    res `sublist_of` take i poly →
    (i + k ≤ length poly)%nat →
    ∃ (res' : list Point) (isChanged' : bool),
      LinesSet.scan_vertices dot vSize poly (seq i k) res isChanged
      = Ok (res', isChanged')
      ∧ res' `sublist_of` take (i + k) poly
      ∧ (res ≠ [] → res' ≠ [] ∧ head res' = head res)
      ∧ (k = 0%nat → isChanged' = isChanged).
Proof.
  induction k as [|k IH]; intros i res isChanged Hsub Hlen.
  - exists res, isChanged. simpl. rewrite Nat.add_0_r. by repeat split.
  - simpl.
    assert (Hi : (i < length poly)%nat) by lia.
    destruct (lookup_lt_is_Some_2 poly i Hi) as [now Hnow].
    assert (Hlast : ∃ last, (if decide (res = []) then back poly else back res)
                            = Ok last).
    { unfold back. destruct (decide (res = [])) as [_|Hne].
      - destruct (last poly) eqn:E; [by eexists|].
        apply last_None in E. subst. simpl in Hi. lia.
      - destruct (last res) eqn:E; [by eexists|].
        by apply last_None in E. }
    destruct Hlast as [last ->]. simpl.
    destruct (decide ((length poly ≤ i + 1)%nat ∧ res = [])) as [[_ ->]|Hbreak].
    { exists [], isChanged. repeat split; try done. apply sublist_nil_l. }
    assert (Hnext : ∃ next, (if decide (length poly ≤ i + 1)%nat
                             then defined (res !! 0%nat)
                             else defined (poly !! (i + 1)%nat)) = Ok next).
    { destruct (decide (length poly ≤ i + 1)%nat) as [Hle|Hgt].
      - destruct res as [|r res]; [exfalso; by apply Hbreak|]. by exists r.
      - destruct (lookup_lt_is_Some_2 poly (i + 1)) as [q Hq]; [lia|].
        exists q. by rewrite Hq. }
    destruct Hnext as [next ->]. simpl. rewrite Hnow. simpl.
    replace (i + S k)%nat with (S i + k)%nat by lia.
    destruct (LinesSet.isDegenerate dot vSize last now next).
    + destruct (pop_degenerate_prefix next res) as (popped & Heq & Hkeep).
      destruct (IH (S i) (LinesSet.pop_degenerate dot vSize next res) true)
        as (res' & ch' & Hrun & Hsub' & Hhead & _).
      * apply sublist_take_S. etransitivity; [|exact Hsub].
        rewrite Heq at 2. by apply sublist_inserts_r.
      * lia.
      * exists res', ch'. split; [exact Hrun|]. split; [exact Hsub'|].
        split; [|lia]. intros Hne. destruct (Hkeep Hne) as [Hne' Hh].
        destruct (Hhead Hne') as [? ?]. split; [done|congruence].
    + destruct (IH (S i) (res ++ [now]) isChanged)
        as (res' & ch' & Hrun & Hsub' & Hhead & _).
      * rewrite (take_S_r _ _ _ Hnow). by apply sublist_app.
      * lia.
      * exists res', ch'. split; [exact Hrun|]. split; [exact Hsub'|].
        split; [|lia]. intros Hne.
        destruct Hhead as [? Hh]; [by destruct res|].
        split; [done|]. rewrite Hh. by destruct res.
Qed.

(** One closed line: the pass returns, with a subsequence of the line. *)
Lemma degenerate_pass_closed (poly : list Point) :
  ∃ (res : list Point) (isChanged : bool),
    LinesSet.degenerate_pass dot vSize false poly = Ok (res, isChanged)
    ∧ res `sublist_of` poly.
Proof.
  unfold LinesSet.degenerate_pass. simpl.
  destruct (scan_vertices_spec poly (length poly - 0) 0 [] false)
    as (res & ch & Hrun & Hsub & _ & _).
  - apply sublist_nil_l.
  - lia.
  - rewrite Hrun. simpl. exists (res ++ drop (length poly) poly), ch.
    split; [done|]. rewrite drop_all, app_nil_r.
    simpl in Hsub. by rewrite Nat.sub_0_r, take_ge in Hsub by lia.
Qed.

(** One open polyline: the pass returns unless the polyline is empty; when
    it has changed something, the result is a subsequence of the polyline
    with the same first and last point. *)
Lemma degenerate_pass_open (poly : list Point) :
  poly ≠ [] →
  ∃ (res : list Point) (isChanged : bool),
    LinesSet.degenerate_pass dot vSize true poly = Ok (res, isChanged)
    ∧ (isChanged = true →
       res `sublist_of` poly ∧ head res = head poly ∧ last res = last poly).
Proof.
  intros Hne. unfold LinesSet.degenerate_pass.
  destruct poly as [|p0 poly']; [done|].
  set (poly := p0 :: poly') in *.
  destruct (scan_vertices_spec poly (length poly - 1 - 1) 1 [p0] false)
    as (res & ch & Hrun & Hsub & Hhead & Hch).
  - simpl. apply sublist_skip, sublist_nil_l.
  - simpl. lia.
  - simpl in Hrun |- *. rewrite Hrun. simpl.
    eexists _, ch. split; [reflexivity|]. intros ->.
    destruct (decide (length poly - 1 - 1 = 0)%nat) as [Hz|Hnz].
    { specialize (Hch Hz). discriminate. }
    destruct Hhead as [Hres Hh]; [done|].
    assert (Hdrop : ∃ q, drop (length poly - 1) poly = [q]).
    { destruct (lookup_lt_is_Some_2 poly (length poly - 1)) as [q Hq];
        [simpl; lia|].
      exists q. rewrite (drop_S _ _ _ Hq).
      by rewrite drop_ge by (simpl; lia). }
    destruct Hdrop as [q Hdrop].
    replace (1 + (length poly - 1 - 1))%nat with (length poly - 1)%nat in Hsub
      by (simpl in *; lia).
    assert (Hpoly : poly = take (length poly - 1) poly ++ [q]).
    { by rewrite <- Hdrop, take_drop. }
    change (length poly' - 0)%nat with (length poly - 1)%nat.
    rewrite Hdrop. split; [|split].
    + rewrite Hpoly. by apply sublist_app.
    + destruct res; [done|]. simpl in *. congruence.
    + rewrite last_snoc. rewrite Hpoly. by rewrite last_snoc.
Qed.

End DegenerateVertsOfALine.

Section DegenerateVertsOfASet.

Variable dot : Point -> Point -> Z.
Variable vSize : Point -> Z.

Lemma pointCount_insert (lines_ : list (list Point)) (idx : nat)
    (poly res : list Point) :
  lines_ !! idx = Some poly →
  (length res ≤ length poly)%nat →
  (LinesSet.pointCount (<[idx := res]> lines_)
   ≤ LinesSet.pointCount lines_)%nat.
Proof.
  intros Hpoly Hlen.
  apply list_elem_of_split_length in Hpoly as (l1 & l2 & -> & ->).
  rewrite insert_app_r_alt by lia.
  replace (length l1 - length l1)%nat with 0%nat by lia. simpl.
  rewrite !pointCount_app, !pointCount_cons. lia.
Qed.

Lemma removeDegenerateVerts_from_closed (fuel : nat) :
  ∀ (poly_idx : nat) (lines_ : list (list Point)),
    (length lines_ - poly_idx ≤ fuel)%nat →
    ∃ out : list (list Point),
      LinesSet.removeDegenerateVerts_from dot vSize false fuel poly_idx lines_
      = Some (Ok out)
      ∧ (length out ≤ length lines_)%nat
      ∧ (LinesSet.pointCount out ≤ LinesSet.pointCount lines_)%nat
      ∧ ∀ line' : list Point, line' ∈ out →
          ∃ line : list Point,
            line ∈ lines_ ∧ line' `sublist_of` line
            ∧ (line' = line ∨ (2 < length line')%nat).
Proof.
  induction fuel as [|fuel IH]; intros poly_idx lines_ Hfuel.
  - exists lines_. simpl.
    rewrite (proj2 (lookup_ge_None lines_ poly_idx)) by lia.
    do 3 (split; [done|]). intros l Hl. exists l. split; [done|]. split; [done|]. by left.
  - simpl. destruct (lines_ !! poly_idx) as [poly|] eqn:Hpoly.
    2:{ exists lines_. do 3 (split; [done|]).
        intros l Hl. exists l. split; [done|]. split; [done|]. by left. }
    apply lookup_lt_Some in Hpoly as Hlt.
    destruct (degenerate_pass_closed dot vSize poly)
      as (res & isChanged & -> & Hsub).
    destruct isChanged.
    + simpl. destruct (bool_decide (2 < length res)%nat) eqn:Hlong.
      * apply bool_decide_eq_true_1 in Hlong.
        destruct (IH (S poly_idx) (<[poly_idx := res]> lines_))
          as (out & Hrun & Hlen & Hcount & Hout).
        { rewrite length_insert. lia. }
        exists out. split; [exact Hrun|]. rewrite length_insert in Hlen.
        split; [exact Hlen|]. split.
        { etransitivity; [exact Hcount|].
          eapply pointCount_insert; [exact Hpoly|].
          by apply sublist_length. }
        intros l' Hl'. destruct (Hout l' Hl') as (l & Hl & Hsub' & Hor).
        apply list_elem_of_lookup in Hl as [i Hi].
        apply list_lookup_insert_Some in Hi as [(-> & -> & _)|[_ Hi]].
        -- exists poly. split; [by eapply list_elem_of_lookup_2|].
           split; [by etransitivity|]. right.
           destruct Hor as [->|?]; done.
        -- exists l. split; [by eapply list_elem_of_lookup_2|]. done.
      * destruct (removeAt_valid lines_ poly_idx poly Hpoly)
          as (rest & -> & Hperm & Hsize).
        destruct (IH poly_idx rest) as (out & Hrun & Hlen & Hcount & Hout).
        { lia. }
        exists out. split; [exact Hrun|]. split; [lia|]. split.
        { etransitivity; [exact Hcount|].
          rewrite <- (pointCount_Permutation _ _ Hperm), pointCount_cons.
          lia. }
        intros l' Hl'. destruct (Hout l' Hl') as (l & Hl & Hrest).
        exists l. split; [|exact Hrest].
        rewrite <- Hperm. by apply list_elem_of_further.
    + destruct (IH (S poly_idx) lines_) as (out & Hrun & Hrest); [lia|].
      by exists out.
Qed.

Lemma removeDegenerateVerts_from_open (fuel : nat) :
  ∀ (poly_idx : nat) (lines_ : list (list Point)),
    (length lines_ - poly_idx ≤ fuel)%nat →
    (∀ line : list Point, line ∈ lines_ → line ≠ []) →
    ∃ out : list (list Point),
      LinesSet.removeDegenerateVerts_from dot vSize true fuel poly_idx lines_
      = Some (Ok out)
      ∧ length out = length lines_
      ∧ ∀ (i : nat) (line : list Point), lines_ !! i = Some line →
          ∃ line' : list Point,
            out !! i = Some line' ∧ line' `sublist_of` line
            ∧ head line' = head line ∧ last line' = last line.
Proof.
  induction fuel as [|fuel IH]; intros poly_idx lines_ Hfuel Hne.
  - exists lines_. simpl.
    rewrite (proj2 (lookup_ge_None lines_ poly_idx)) by lia.
    do 2 (split; [done|]). intros i l Hl. by exists l.
  - simpl. destruct (lines_ !! poly_idx) as [poly|] eqn:Hpoly.
    2:{ exists lines_. do 2 (split; [done|]). intros i l Hl. by exists l. }
    apply lookup_lt_Some in Hpoly as Hlt.
    assert (Hpne : poly ≠ []).
    { apply Hne. by eapply list_elem_of_lookup_2. }
    destruct (degenerate_pass_open dot vSize poly Hpne)
      as (res & isChanged & -> & Hres).
    destruct isChanged.
    + simpl. destruct Hres as (Hsub & Hhead & Hlast); [done|].
      destruct (IH (S poly_idx) (<[poly_idx := res]> lines_))
        as (out & Hrun & Hlen & Hout).
      { rewrite length_insert. lia. }
      { intros l Hl. apply list_elem_of_lookup in Hl as [i Hi].
        apply list_lookup_insert_Some in Hi as [(-> & <- & _)|[_ Hi]].
        - intros ->. destruct poly; done.
        - apply Hne. by eapply list_elem_of_lookup_2. }
      exists out. split; [exact Hrun|]. rewrite length_insert in Hlen.
      split; [exact Hlen|]. intros i l Hl.
      destruct (decide (i = poly_idx)) as [->|Hi].
      * assert (l = poly) as -> by congruence.
        destruct (Hout poly_idx res) as (l' & Hl' & Hs & Hh & Hla).
        { by apply list_lookup_insert_eq. }
        exists l'. split; [exact Hl'|]. split; [by etransitivity|].
        split; congruence.
      * apply Hout. by rewrite list_lookup_insert_ne.
    + destruct (IH (S poly_idx) lines_) as (out & Hrun & Hrest); [lia|done|].
      by exists out.
Qed.

Lemma removeDegenerateVerts_from_open_empty (fuel : nat) :
  ∀ (poly_idx i : nat) (lines_ : list (list Point)),
    (length lines_ - poly_idx ≤ fuel)%nat →
    (poly_idx ≤ i)%nat →
    lines_ !! i = Some [] →
    LinesSet.removeDegenerateVerts_from dot vSize true fuel poly_idx lines_
    = Some (Fault UndefinedBehaviour).
Proof.
  induction fuel as [|fuel IH]; intros poly_idx i lines_ Hfuel Hle Hi;
    apply lookup_lt_Some in Hi as Hlt; [lia|].
  simpl. destruct (lookup_lt_is_Some_2 lines_ poly_idx) as [poly Hpoly]; [lia|].
  rewrite Hpoly. destruct (decide (poly = [])) as [->|Hpne]; [done|].
  assert (poly_idx ≠ i) by congruence.
  destruct (degenerate_pass_open dot vSize poly Hpne)
    as (res & isChanged & -> & _).
  destruct isChanged; simpl.
  - apply (IH (S poly_idx) i); [rewrite length_insert; lia|lia|].
    by rewrite list_lookup_insert_ne.
  - apply (IH (S poly_idx) i); [lia|lia|done].
Qed.

(** X18: On closed lines [removeDegenerateVerts] always returns.  It adds no line
    and no point; every line it leaves is a subsequence of a line of the
    input, and is either such a line unchanged or has more than two
    points. *)
Theorem removeDegenerateVerts_closed (lines_ : list (list Point)) :
  ∃ out : list (list Point),
    LinesSet.removeDegenerateVerts dot vSize false lines_ = Some (Ok out)
    ∧ (length out ≤ length lines_)%nat
    ∧ (LinesSet.pointCount out ≤ LinesSet.pointCount lines_)%nat
    ∧ ∀ line' : list Point, line' ∈ out →
        ∃ line : list Point,
          line ∈ lines_ ∧ line' `sublist_of` line
          ∧ (line' = line ∨ (2 < length line')%nat).
Proof. apply removeDegenerateVerts_from_closed. lia. Qed.

(** X19: On open polylines none of which is empty, [removeDegenerateVerts]
    returns and removes no line: line [i] of the result is a subsequence of
    line [i] of the input, with the same first and the same last point. *)
Theorem removeDegenerateVerts_open (lines_ : list (list Point)) :
  (∀ line : list Point, line ∈ lines_ → line ≠ []) →
  ∃ out : list (list Point),
    LinesSet.removeDegenerateVerts dot vSize true lines_ = Some (Ok out)
    ∧ length out = length lines_
    ∧ ∀ (i : nat) (line : list Point), lines_ !! i = Some line →
        ∃ line' : list Point,
          out !! i = Some line' ∧ line' `sublist_of` line
          ∧ head line' = head line ∧ last line' = last line.
Proof. apply removeDegenerateVerts_from_open. lia. Qed.

(** X20: An empty open polyline anywhere in the set makes [removeDegenerateVerts]
    read the first point of an empty vector. *)
Theorem removeDegenerateVerts_open_empty_line (lines_ : list (list Point)) :
  [] ∈ lines_ →
  LinesSet.removeDegenerateVerts dot vSize true lines_
  = Some (Fault UndefinedBehaviour).
Proof.
  intros Hin. apply list_elem_of_lookup in Hin as [i Hi].
  apply (removeDegenerateVerts_from_open_empty _ 0 i); [lia|lia|exact Hi].
Qed.

End DegenerateVertsOfASet.


Lemma removeDegenerateVerts_open_witness :
  ∃ out : list (list Point),
    LinesSet.removeDegenerateVerts dot vSize true
      [[mkPoint 0 0; mkPoint 10 0; mkPoint 5 0; mkPoint 5 5]]
    = Some (Ok out)
    ∧ length out = length [[mkPoint 0 0; mkPoint 10 0; mkPoint 5 0; mkPoint 5 5]]
    ∧ ∀ (i : nat) (line : list Point),
        [[mkPoint 0 0; mkPoint 10 0; mkPoint 5 0; mkPoint 5 5]] !! i = Some line →
        ∃ line' : list Point,
          out !! i = Some line' ∧ line' `sublist_of` line
          ∧ head line' = head line ∧ last line' = last line.
Proof.
  apply (removeDegenerateVerts_open dot vSize).
  intros line Hline.
  repeat (apply elem_of_cons in Hline as [-> | Hline]);
    try (by apply not_elem_of_nil in Hline); discriminate.
Defined.

Lemma removeDegenerateVerts_open_empty_line_witness :
  LinesSet.removeDegenerateVerts dot vSize true
    [[mkPoint 0 0; mkPoint 10 0]; []]
  = Some (Fault UndefinedBehaviour).
Proof.
  apply (removeDegenerateVerts_open_empty_line dot vSize).
  apply list_elem_of_further, list_elem_of_here.
Defined.

(** ** Discontinuity resolver (C7) *)



